(** * Rigid-IPC collision core: a shallow embedding and its properties

    The development follows the C++ sources: the narrow-phase
    time-of-impact queries (interval root finding), the impact
    bookkeeping of [State], scene (de)serialisation and the
    distance-barrier rigid-body problem.

    Conventions.  A C++ [double] is a rational number ([Q]); rounding,
    NaN and overflow are outside the model, and the few places where an
    IEEE infinity matters carry it explicitly.  A closed interval is a
    pair of rational end points and interval operations are exact on
    the end points.  C++ [int] values that may be negative (the [-1]
    sentinels) are in [Z]; row and element indices are [nat]. *)

From Stdlib Require Import QArith Qminmax Lqa Lia ZArith List Bool.
From stdpp Require Import base option list gmap strings sorting.

Import ListNotations.

(** ** Failures *)

(** [NotImplementedError] is the exception thrown by the unfinished 3D
    paths; [AssertionFailed] is a failed [assert] or Eigen size or range
    check; [JsonTypeError] is the exception of [json::get] on a value of
    the wrong type.  [NonFinite] marks the border of the model: the code
    would go on with an IEEE infinity or NaN stored in a matrix. *)
Inductive error : Type :=
| NotImplementedError (msg : string)
| AssertionFailed
| JsonTypeError
| NonFinite.

Inductive result (A : Type) : Type :=
| Ok (a : A)
| Raise (e : error).
Arguments Ok {A} a.
Arguments Raise {A} e.

#[global] Instance result_ret : MRet result := fun A a => Ok a.

#[global] Instance result_bind : MBind result := fun A B k r =>
  match r with
  | Ok a => k a
  | Raise e => Raise e
  end.

(** ** Doubles that may leave the finite range *)

(** The value of a floating-point division or comparison whose operands
    are finite: a number, an infinity, or NaN. *)
Inductive xdouble : Type :=
| Finite (x : Q)
| PlusInf
| MinusInf
| NaN.

Definition Qlt_bool (x y : Q) : bool := negb (Qle_bool y x).

(** [a / b] on finite doubles. *)
Definition fdiv (a b : Q) : xdouble :=
  if Qeq_bool b 0 then
    if Qlt_bool 0 a then PlusInf
    else if Qlt_bool a 0 then MinusInf
    else NaN
  else Finite (a / b).

(** [a < b]; every comparison with NaN is false. *)
Definition xlt (a b : xdouble) : bool :=
  match a, b with
  | NaN, _ | _, NaN => false
  | _, MinusInf => false
  | MinusInf, _ => true
  | PlusInf, _ => false
  | Finite _, PlusInf => true
  | Finite x, Finite y => Qlt_bool x y
  end.

(** [std::min(a, b)] is [(b < a) ? b : a]. *)
Definition std_min (a b : xdouble) : xdouble := if xlt b a then b else a.

(** ** Interval arithmetic *)

Module Interval.

Record t : Type := make { lower : Q; upper : Q }.

(** [Interval()] : the default-constructed interval is [[0,0]]. *)
Definition default : t := make 0 0.

(** A degenerate interval holding one number ([cast<Interval>]). *)
Definition point (x : Q) : t := make x x.

Definition width (x : t) : Q := upper x - lower x.

Definition median (x : t) : Q := (lower x + upper x) / 2.

Definition bisect (x : t) : t * t :=
  (make (lower x) (median x), make (median x) (upper x)).

Definition zero_in (x : t) : bool :=
  Qle_bool (lower x) 0 && Qle_bool 0 (upper x).

Definition add (x y : t) : t :=
  make (lower x + lower y) (upper x + upper y).

Definition sub (x y : t) : t :=
  make (lower x - upper y) (upper x - lower y).

Definition min4 (a b c d : Q) : Q := Qmin (Qmin a b) (Qmin c d).
Definition max4 (a b c d : Q) : Q := Qmax (Qmax a b) (Qmax c d).

Definition mul (x y : t) : t :=
  make (min4 (lower x * lower y) (lower x * upper y)
             (upper x * lower y) (upper x * upper y))
       (max4 (lower x * lower y) (lower x * upper y)
             (upper x * lower y) (upper x * upper y)).

(** The interval is well formed and lies inside [[lo, hi]]. *)
Definition within (lo hi : Q) (x : t) : Prop :=
  (lo <= lower x /\ lower x <= upper x /\ upper x <= hi)%Q.

End Interval.

Abbreviation Interval := Interval.t.

(** ** Certified root finder *)

Module RootFinder.

Section Finder.

Variable f : Interval → Interval.
Variable constraint_predicate : Interval → result bool.
Variable tol : Q.

(** Modelled from the spec: [interval_root_finder] is declared in
    [interval_root_finder.hpp], which is not among the sources.  A LIFO
    stack of sub-intervals starts with the domain; each step pops [x] and
    evaluates [f x]; when [0] is not in it, [x] is dropped; otherwise,
    when [width x <= tol], the inside predicate decides between returning
    [x] and dropping it; otherwise [x] is split at its mid point and the
    right half is pushed before the left half, so that the left half is
    examined first.  [fuel] bounds the number of pops; [x_out] is the
    caller's output interval, written only when a root is found. *)
Fixpoint root_finder_loop (fuel : nat) (xs : list Interval) (x_out : Interval)
  : option (result (bool * Interval)) :=
  match xs with
  | [] => Some (Ok (false, x_out))
  | x :: rest =>
    match fuel with
    | O => None
    | S fuel' =>
      if negb (Interval.zero_in (f x)) then root_finder_loop fuel' rest x_out
      else if Qle_bool (Interval.width x) tol then
        match constraint_predicate x with
        | Raise e => Some (Raise e)
        | Ok true => Some (Ok (true, x))
        | Ok false => root_finder_loop fuel' rest x_out
        end
      else
        let halves := Interval.bisect x in
        root_finder_loop fuel' (fst halves :: snd halves :: rest) x_out
    end
  end.

Definition interval_root_finder (x0 : Interval) (x_out : Interval) (fuel : nat)
  : option (result (bool * Interval)) :=
  root_finder_loop fuel [x0] x_out.

End Finder.

(** Measures used to bound the search: an interval of width at most
    [tol * pow2 k] is explored in at most [pops k] pops. *)
Definition pow2 (k : nat) : Q := inject_Z (2 ^ Z.of_nat k).

Definition pops (k : nat) : nat := 2 ^ S k - 1.

End RootFinder.

(** ** Interval vectors *)

(** [Eigen::VectorX3<Interval>]: a vector of at most three intervals. *)
Abbreviation VectorI := (list Interval).

Module Vector3I.

(** [Eigen::Vector3<Interval>] *)
Definition t : Type := Interval * Interval * Interval.

(** Assigning a dynamic vector to a fixed-size one checks the size. *)
Definition of_VectorX3 (v : VectorI) : result t :=
  match v with
  | [x; y; z] => Ok (x, y, z)
  | _ => Raise AssertionFailed
  end.

Definition sub (a b : t) : t :=
  let '(ax, ay, az) := a in
  let '(bx, by_, bz) := b in
  (Interval.sub ax bx, Interval.sub ay by_, Interval.sub az bz).

Definition cross (a b : t) : t :=
  let '(ax, ay, az) := a in
  let '(bx, by_, bz) := b in
  (Interval.sub (Interval.mul ay bz) (Interval.mul az by_),
   Interval.sub (Interval.mul az bx) (Interval.mul ax bz),
   Interval.sub (Interval.mul ax by_) (Interval.mul ay bx)).

Definition squaredNorm (a : t) : Interval :=
  let '(ax, ay, az) := a in
  Interval.add (Interval.add (Interval.mul ax ax) (Interval.mul ay ay))
               (Interval.mul az az).

End Vector3I.

(** ** Narrow-phase time of impact *)

Module Toi.

(** What the queries use of the rigid-body, pose and geometry headers
    ([rigid_body.tpp], [pose.hpp], [geometry/distance.hpp],
    [geometry/intersection.hpp], [geometry/normal.tpp]), none of which is
    among the sources: these are parameters of the development. *)
Class Kernel : Type := {
  RigidBody : Type;
  PoseD : Type;
  PoseI : Type;
  dim : RigidBody → Z;
  edges : RigidBody → nat → nat → nat;
  faces : RigidBody → nat → nat → nat;
  cast : PoseD → PoseI;
  pose_add : PoseI → PoseI → PoseI;
  pose_mul : PoseI → Interval → PoseI;
  interpolate : PoseI → PoseI → Interval → PoseI;
  world_vertex : RigidBody → PoseI → nat → VectorI;
  point_line_signed_distance : VectorI → VectorI → VectorI → Interval;
  line_line_signed_distance : VectorI → VectorI → VectorI → VectorI → Interval;
  point_plane_signed_distance : VectorI → VectorI → VectorI → VectorI → Interval;
  point_plane_signed_distance_normal : VectorI → VectorI → VectorI → Interval;
  triangle_normal : VectorI → VectorI → VectorI → bool → VectorI;
  is_point_along_segment : VectorI → VectorI → VectorI → bool;
  is_point_along_edge : VectorI → VectorI → VectorI → bool;
  are_edges_intersecting : VectorI → VectorI → VectorI → VectorI → bool;
  is_point_inside_triangle : VectorI → VectorI → VectorI → VectorI → bool;
  (** the tolerance the root finder takes when the caller gives none *)
  default_tol : Q
}.

(** [toi = toi_interval.lower(); return is_impacting;] *)
Definition conservative_toi (r : option (result (bool * Interval)))
  : option (result (bool * Q)) :=
  match r with
  | None => None
  | Some (Raise e) => Some (Raise e)
  | Some (Ok (is_impacting, toi_interval)) =>
      Some (Ok (is_impacting, Interval.lower toi_interval))
  end.

(** The two [assert]s on the dimension that open every query. *)
Definition assert_dims (dimA dimB expected : Z) : bool :=
  (dimB =? dimA)%Z && (dimA =? expected)%Z.

Section Queries.

Context `{K : Kernel}.

(** *** Queries on poses at [t=0] and [t=1], search in [[0, earliest_toi]] *)

Section Redon.

Variables (bodyA : RigidBody) (poseA_t0 poseA_t1 : PoseD) (idA : nat).
Variables (bodyB : RigidBody) (poseB_t0 poseB_t1 : PoseD) (idB : nat).
Variables (earliest_toi toi_tolerance : Q).

Definition poseIA (t : Interval) : PoseI :=
  interpolate (cast poseA_t0) (cast poseA_t1) t.
Definition poseIB (t : Interval) : PoseI :=
  interpolate (cast poseB_t0) (cast poseB_t1) t.

Definition ev_redon_distance (t : Interval) : Interval :=
  let vertex := world_vertex bodyA (poseIA t) idA in
  let edge_vertex0 := world_vertex bodyB (poseIB t) (edges bodyB idB 0) in
  let edge_vertex1 := world_vertex bodyB (poseIB t) (edges bodyB idB 1) in
  point_line_signed_distance vertex edge_vertex0 edge_vertex1.

Definition ev_redon_is_point_along_edge (t : Interval) : result bool :=
  let vertex := world_vertex bodyA (poseIA t) idA in
  let edge_vertex0 := world_vertex bodyB (poseIB t) (edges bodyB idB 0) in
  let edge_vertex1 := world_vertex bodyB (poseIB t) (edges bodyB idB 1) in
  Ok (is_point_along_edge vertex edge_vertex0 edge_vertex1).

Definition ev_redon_root (fuel : nat) : option (result (bool * Interval)) :=
  RootFinder.interval_root_finder ev_redon_distance
    ev_redon_is_point_along_edge toi_tolerance
    (Interval.make 0 earliest_toi) Interval.default fuel.

Definition compute_edge_vertex_time_of_impact_redon (fuel : nat)
  : option (result (bool * Q)) :=
  if assert_dims (dim bodyA) (dim bodyB) 2
  then conservative_toi (ev_redon_root fuel)
  else Some (Raise AssertionFailed).

Definition ee_redon_distance (t : Interval) : Interval :=
  let edgeA_vertex0 := world_vertex bodyA (poseIA t) (edges bodyA idA 0) in
  let edgeA_vertex1 := world_vertex bodyA (poseIA t) (edges bodyA idA 1) in
  let edgeB_vertex0 := world_vertex bodyB (poseIB t) (edges bodyB idB 0) in
  let edgeB_vertex1 := world_vertex bodyB (poseIB t) (edges bodyB idB 1) in
  line_line_signed_distance
    edgeA_vertex0 edgeA_vertex1 edgeB_vertex0 edgeB_vertex1.

Definition ee_redon_is_intersection_inside_edges (t : Interval) : result bool :=
  let edgeA_vertex0 := world_vertex bodyA (poseIA t) (edges bodyA idA 0) in
  let edgeA_vertex1 := world_vertex bodyA (poseIA t) (edges bodyA idA 1) in
  let edgeB_vertex0 := world_vertex bodyB (poseIB t) (edges bodyB idB 0) in
  let edgeB_vertex1 := world_vertex bodyB (poseIB t) (edges bodyB idB 1) in
  Ok (are_edges_intersecting
        edgeA_vertex0 edgeA_vertex1 edgeB_vertex0 edgeB_vertex1).

Definition ee_redon_root (fuel : nat) : option (result (bool * Interval)) :=
  RootFinder.interval_root_finder ee_redon_distance
    ee_redon_is_intersection_inside_edges toi_tolerance
    (Interval.make 0 earliest_toi) Interval.default fuel.

Definition compute_edge_edge_time_of_impact_redon (fuel : nat)
  : option (result (bool * Q)) :=
  if assert_dims (dim bodyA) (dim bodyB) 3
  then conservative_toi (ee_redon_root fuel)
  else Some (Raise AssertionFailed).

Definition fv_redon_distance (t : Interval) : Interval :=
  let vertex := world_vertex bodyA (poseIA t) idA in
  let face_vertex0 := world_vertex bodyB (poseIB t) (faces bodyB idB 0) in
  let face_vertex1 := world_vertex bodyB (poseIB t) (faces bodyB idB 1) in
  let face_vertex2 := world_vertex bodyB (poseIB t) (faces bodyB idB 2) in
  point_plane_signed_distance vertex face_vertex0 face_vertex1 face_vertex2.

Definition fv_redon_is_point_inside_triangle (t : Interval) : result bool :=
  let vertex := world_vertex bodyA (poseIA t) idA in
  let face_vertex0 := world_vertex bodyB (poseIB t) (faces bodyB idB 0) in
  let face_vertex1 := world_vertex bodyB (poseIB t) (faces bodyB idB 1) in
  let face_vertex2 := world_vertex bodyB (poseIB t) (faces bodyB idB 2) in
  Ok (is_point_inside_triangle vertex face_vertex0 face_vertex1 face_vertex2).

Definition fv_redon_root (fuel : nat) : option (result (bool * Interval)) :=
  RootFinder.interval_root_finder fv_redon_distance
    fv_redon_is_point_inside_triangle toi_tolerance
    (Interval.make 0 earliest_toi) Interval.default fuel.

Definition compute_face_vertex_time_of_impact_redon (fuel : nat)
  : option (result (bool * Q)) :=
  if assert_dims (dim bodyA) (dim bodyB) 3
  then conservative_toi (fv_redon_root fuel)
  else Some (Raise AssertionFailed).

End Redon.

(** *** Queries on a pose and a displacement, search in [[0, 1]] *)

Section Displacement.

Variables (bodyA : RigidBody) (poseA displacementA : PoseD) (idA : nat).
Variables (bodyB : RigidBody) (poseB displacementB : PoseD) (idB : nat).

Definition bodyA_pose_interval (t : Interval) : PoseI :=
  pose_add (cast poseA) (pose_mul (cast displacementA) t).
Definition bodyB_pose_interval (t : Interval) : PoseI :=
  pose_add (cast poseB) (pose_mul (cast displacementB) t).

Definition ev_distance (t : Interval) : Interval :=
  let vertex := world_vertex bodyA (bodyA_pose_interval t) idA in
  let edge_vertex0 :=
    world_vertex bodyB (bodyB_pose_interval t) (edges bodyB idB 0) in
  let edge_vertex1 :=
    world_vertex bodyB (bodyB_pose_interval t) (edges bodyB idB 1) in
  point_line_signed_distance vertex edge_vertex0 edge_vertex1.

Definition ev_is_point_along_edge (t : Interval) : result bool :=
  let vertex := world_vertex bodyA (bodyA_pose_interval t) idA in
  let edge_vertex0 :=
    world_vertex bodyB (bodyB_pose_interval t) (edges bodyB idB 0) in
  let edge_vertex1 :=
    world_vertex bodyB (bodyB_pose_interval t) (edges bodyB idB 1) in
  Ok (is_point_along_segment vertex edge_vertex0 edge_vertex1).

(** [/*tol=*/1e-8] *)
Definition ev_tol : Q := 1 # 100000000.

Definition ev_root (fuel : nat) : option (result (bool * Interval)) :=
  RootFinder.interval_root_finder ev_distance ev_is_point_along_edge ev_tol
    (Interval.make 0 1) Interval.default fuel.

Definition compute_edge_vertex_time_of_impact (fuel : nat)
  : option (result (bool * Q)) :=
  if assert_dims (dim bodyA) (dim bodyB) 2
  then conservative_toi (ev_root fuel)
  else Some (Raise AssertionFailed).

(** The world positions of the two edges at time [t]. *)
Definition ee_vertex_positions (t : Interval)
  : VectorI * VectorI * VectorI * VectorI :=
  (world_vertex bodyA (bodyA_pose_interval t) (edges bodyA idA 0),
   world_vertex bodyA (bodyA_pose_interval t) (edges bodyA idA 1),
   world_vertex bodyB (bodyB_pose_interval t) (edges bodyB idB 0),
   world_vertex bodyB (bodyB_pose_interval t) (edges bodyB idB 1)).

Definition ee_distance (t : Interval) : Interval :=
  let '(edgeA_vertex0, edgeA_vertex1, edgeB_vertex0, edgeB_vertex1) :=
    ee_vertex_positions t in
  line_line_signed_distance
    edgeA_vertex0 edgeA_vertex1 edgeB_vertex0 edgeB_vertex1.

(** The inside test of the pose-and-displacement edge-edge query: [false]
    when [0] is in the squared norm of [r x s], and otherwise the
    exception that marks the unfinished test. *)
Definition is_intersection_inside_edges (t : Interval) : result bool :=
  let '(edgeA_vertex0, edgeA_vertex1, edgeB_vertex0, edgeB_vertex1) :=
    ee_vertex_positions t in
  p ← Vector3I.of_VectorX3 edgeA_vertex0;
  a1 ← Vector3I.of_VectorX3 edgeA_vertex1;
  q ← Vector3I.of_VectorX3 edgeB_vertex0;
  b1 ← Vector3I.of_VectorX3 edgeB_vertex1;
  let r := Vector3I.sub a1 p in
  let s := Vector3I.sub b1 q in
  let rxs := Vector3I.cross r s in
  if Interval.zero_in (Vector3I.squaredNorm rxs) then Ok false
  else Raise (NotImplementedError "Edge-edge inside test not implemented!").

Definition ee_root (fuel : nat) : option (result (bool * Interval)) :=
  RootFinder.interval_root_finder ee_distance is_intersection_inside_edges
    default_tol (Interval.make 0 1) Interval.default fuel.

Definition compute_edge_edge_time_of_impact (fuel : nat)
  : option (result (bool * Q)) :=
  if assert_dims (dim bodyA) (dim bodyB) 3
  then conservative_toi (ee_root fuel)
  else Some (Raise AssertionFailed).

Definition fv_distance (t : Interval) : Interval :=
  let vertex := world_vertex bodyA (bodyA_pose_interval t) idA in
  let face_vertex0 :=
    world_vertex bodyB (bodyB_pose_interval t) (faces bodyB idB 0) in
  let face_vertex1 :=
    world_vertex bodyB (bodyB_pose_interval t) (faces bodyB idB 1) in
  let face_vertex2 :=
    world_vertex bodyB (bodyB_pose_interval t) (faces bodyB idB 2) in
  let normal := triangle_normal face_vertex0 face_vertex1 face_vertex2 false in
  point_plane_signed_distance_normal vertex face_vertex0 normal.

Definition fv_is_point_inside_triangle (t : Interval) : result bool :=
  let vertex := world_vertex bodyA (bodyA_pose_interval t) idA in
  let face_vertex0 :=
    world_vertex bodyB (bodyB_pose_interval t) (faces bodyB idB 0) in
  let face_vertex1 :=
    world_vertex bodyB (bodyB_pose_interval t) (faces bodyB idB 1) in
  let face_vertex2 :=
    world_vertex bodyB (bodyB_pose_interval t) (faces bodyB idB 2) in
  Ok (is_point_inside_triangle vertex face_vertex0 face_vertex1 face_vertex2).

Definition fv_root (fuel : nat) : option (result (bool * Interval)) :=
  RootFinder.interval_root_finder fv_distance fv_is_point_inside_triangle
    default_tol (Interval.make 0 1) Interval.default fuel.

Definition compute_face_vertex_time_of_impact (fuel : nat)
  : option (result (bool * Q)) :=
  if assert_dims (dim bodyA) (dim bodyB) 3
  then conservative_toi (fv_root fuel)
  else Some (Raise AssertionFailed).

End Displacement.

(** *** The six queries as one family *)

(** The two bodies, their poses (at [t=0] and [t=1], or pose and
    displacement) and the indices of the two primitives. *)
Record candidate : Type := Candidate {
  c_bodyA : RigidBody; c_poseA : PoseD; c_poseA' : PoseD; c_idA : nat;
  c_bodyB : RigidBody; c_poseB : PoseD; c_poseB' : PoseD; c_idB : nat
}.

Inductive query : Type :=
| EdgeVertexRedon (c : candidate) (earliest_toi toi_tolerance : Q)
| EdgeEdgeRedon (c : candidate) (earliest_toi toi_tolerance : Q)
| FaceVertexRedon (c : candidate) (earliest_toi toi_tolerance : Q)
| EdgeVertex (c : candidate)
| EdgeEdge (c : candidate)
| FaceVertex (c : candidate).

(** The upper end of the search domain [[0, earliest_toi]]. *)
Definition search_upper (q : query) : Q :=
  match q with
  | EdgeVertexRedon _ e _ | EdgeEdgeRedon _ e _ | FaceVertexRedon _ e _ => e
  | EdgeVertex _ | EdgeEdge _ | FaceVertex _ => 1
  end.

Definition on_candidate {A : Type}
    (f : RigidBody → PoseD → PoseD → nat → RigidBody → PoseD → PoseD → nat → A)
    (c : candidate) : A :=
  f (c_bodyA c) (c_poseA c) (c_poseA' c) (c_idA c)
    (c_bodyB c) (c_poseB c) (c_poseB' c) (c_idB c).

(** The tolerance of the search. *)
Definition tolerance (q : query) : Q :=
  match q with
  | EdgeVertexRedon _ _ tol | EdgeEdgeRedon _ _ tol | FaceVertexRedon _ _ tol =>
      tol
  | EdgeVertex _ => ev_tol
  | EdgeEdge _ | FaceVertex _ => default_tol
  end.

(** The call of the root finder that the query makes. *)
Definition enclosure (q : query) (fuel : nat)
  : option (result (bool * Interval)) :=
  match q with
  | EdgeVertexRedon c e tol => on_candidate ev_redon_root c e tol fuel
  | EdgeEdgeRedon c e tol => on_candidate ee_redon_root c e tol fuel
  | FaceVertexRedon c e tol => on_candidate fv_redon_root c e tol fuel
  | EdgeVertex c => on_candidate ev_root c fuel
  | EdgeEdge c => on_candidate ee_root c fuel
  | FaceVertex c => on_candidate fv_root c fuel
  end.

(** The query itself: what it returns and the time of impact it stores. *)
Definition run (q : query) (fuel : nat) : option (result (bool * Q)) :=
  match q with
  | EdgeVertexRedon c e tol =>
      on_candidate compute_edge_vertex_time_of_impact_redon c e tol fuel
  | EdgeEdgeRedon c e tol =>
      on_candidate compute_edge_edge_time_of_impact_redon c e tol fuel
  | FaceVertexRedon c e tol =>
      on_candidate compute_face_vertex_time_of_impact_redon c e tol fuel
  | EdgeVertex c => on_candidate compute_edge_vertex_time_of_impact c fuel
  | EdgeEdge c => on_candidate compute_edge_edge_time_of_impact c fuel
  | FaceVertex c => on_candidate compute_face_vertex_time_of_impact c fuel
  end.

End Queries.

(** *** A kernel for bodies that only translate *)

(** Modelled from the spec: the headers of the kernel are not among the
    sources.  This instance covers bodies without rotation: a pose is a
    translation, [world_vertex] adds it to the vertex of the body, the
    signed distance of a point to a line is the product of the offset
    with the normal of the segment (not normalised), and a point is along
    an edge when its projection parameter is certainly in [[0,1]]. *)
Module Translation.

Definition vadd (a b : VectorI) : VectorI := zip_with Interval.add a b.
Definition vsub (a b : VectorI) : VectorI := zip_with Interval.sub a b.
Definition vscale (a : VectorI) (t : Interval) : VectorI :=
  (λ x, Interval.mul x t) <$> a.
Definition vdot (a b : VectorI) : Interval :=
  foldr Interval.add (Interval.point 0) (zip_with Interval.mul a b).

Record body : Type := Body {
  b_vertices : list (list Q);
  b_edges : list (nat * nat);
  b_faces : list (nat * nat * nat)
}.

Definition b_dim (b : body) : Z :=
  match b_vertices b with
  | v :: _ => Z.of_nat (length v)
  | [] => 0
  end.

Definition b_edge (b : body) (e k : nat) : nat :=
  match b_edges b !! e with
  | Some (i, j) => if (k =? 0)%nat then i else j
  | None => 0
  end.

Definition b_face (b : body) (f k : nat) : nat :=
  match b_faces b !! f with
  | Some (i, j, l) => if (k =? 0)%nat then i else if (k =? 1)%nat then j else l
  | None => 0
  end.

Definition b_world_vertex (b : body) (pose : VectorI) (i : nat) : VectorI :=
  match b_vertices b !! i with
  | Some v => vadd (Interval.point <$> v) pose
  | None => []
  end.

Definition segment_normal (a b : VectorI) : VectorI :=
  match vsub b a with
  | [dx; dy] => [Interval.sub (Interval.point 0) dy; dx]
  | _ => []
  end.

Definition point_line (p a b : VectorI) : Interval :=
  vdot (vsub p a) (segment_normal a b).

Definition certainly_le (x y : Interval) : bool :=
  Qle_bool (Interval.upper x) (Interval.lower y).

Definition along (p a b : VectorI) : bool :=
  let e := vsub b a in
  let s := vdot (vsub p a) e in
  certainly_le (Interval.point 0) s && certainly_le s (vdot e e).

#[local] Instance kernel : Kernel := {
  RigidBody := body;
  PoseD := list Q;
  PoseI := VectorI;
  dim := b_dim;
  edges := b_edge;
  faces := b_face;
  cast p := Interval.point <$> p;
  pose_add := vadd;
  pose_mul := vscale;
  interpolate p0 p1 t := vadd p0 (vscale (vsub p1 p0) t);
  world_vertex := b_world_vertex;
  point_line_signed_distance := point_line;
  line_line_signed_distance _ _ _ _ := Interval.point 0;
  point_plane_signed_distance _ _ _ _ := Interval.point 0;
  point_plane_signed_distance_normal _ _ _ := Interval.point 0;
  triangle_normal _ _ _ _ := [];
  is_point_along_segment := along;
  is_point_along_edge := along;
  are_edges_intersecting _ _ _ _ := false;
  is_point_inside_triangle _ _ _ _ := false;
  default_tol := 1 # 1000000
}.

(** The perpendicular impact of the test suite: the edge from [(-1,0)]
    to [(1,0)] at rest and the vertex [(0,1)] moving by [(0,-2)]. *)
Definition perpendicular_impact : candidate :=
  Candidate (Body [[0; 1]%Q] [] []) [0; 0]%Q [0; -2]%Q 0
            (Body [[-1; 0]; [1; 0]]%Q [(0, 1)%nat] []) [0; 0]%Q [0; 0]%Q 0.



End Translation.

(** *** What the inside test of two edges is meant to decide *)







Section InsideTest.

Context `{K : Kernel}.


End InsideTest.

End Toi.

(** ** Dense vectors and matrices *)

Module Eigen.

(** [v.conservativeResize(n)]: the first entries are kept and the new
    ones are not initialised; [uninit] stands for what they hold. *)
Definition conservativeResize {A : Type} (n : nat) (uninit : A) (v : list A)
  : list A :=
  take n v ++ replicate (n - length v) uninit.

(** [v.resize(n); v.setConstant(c)] *)
Definition resize_setConstant {A : Type} (n : nat) (c : A) : list A :=
  replicate n c.

(** [v.setZero()] on a matrix with two columns. *)
Definition setZero2 (v : list (Q * Q)) : list (Q * Q) :=
  (λ _, (0%Q, 0%Q)) <$> v.

(** [Eigen::MatrixX<T>]: the number of columns and the rows.  The number
    of columns is kept apart because a matrix may have no row. *)
Record MatrixX (T : Type) : Type := Matrix { cols : nat; coeffs : list (list T) }.
Arguments Matrix {T} cols coeffs.
Arguments cols {T} m.
Arguments coeffs {T} m.

Definition rows {T : Type} (m : MatrixX T) : nat := length (coeffs m).

(** Every row has [cols m] entries. *)
Definition wf {T : Type} (m : MatrixX T) : Prop :=
  Forall (λ row, length row = cols m) (coeffs m).

(** [m.resize(r, c); m.setZero()] *)
Definition Zero (r c : nat) : MatrixX Q :=
  Matrix c (replicate r (replicate c 0%Q)).

(** Row operations on matrices with two columns. *)
Definition row_add (a b : Q * Q) : Q * Q := ((a.1 + b.1)%Q, (a.2 + b.2)%Q).
Definition row_sub (a b : Q * Q) : Q * Q := ((a.1 - b.1)%Q, (a.2 - b.2)%Q).
Definition row_scale (s : Q) (a : Q * Q) : Q * Q := ((a.1 * s)%Q, (a.2 * s)%Q).

Definition colwise_minCoeff (first : Q * Q) (others : list (Q * Q)) : Q * Q :=
  foldl (λ m r, (Qmin m.1 r.1, Qmin m.2 r.2)) first others.

Definition colwise_maxCoeff (first : Q * Q) (others : list (Q * Q)) : Q * Q :=
  foldl (λ m r, (Qmax m.1 r.1, Qmax m.2 r.2)) first others.

Definition colwise_sum (m : list (Q * Q)) : Q * Q :=
  foldl row_add (0%Q, 0%Q) m.

Definition colwise_mean (m : list (Q * Q)) : Q * Q :=
  let n := inject_Z (Z.of_nat (length m)) in
  (((colwise_sum m).1 / n)%Q, ((colwise_sum m).2 / n)%Q).

(** [v.minCoeff()] of a vector with at least one entry. *)
Definition minCoeff (first : Q) (others : list Q) : Q :=
  foldl Qmin first others.

End Eigen.

Abbreviation MatrixX := Eigen.MatrixX.

(** ** Impact records *)

Module Impacts.

(** Modelled from the spec: the impact structures are declared in
    [collision_detection.hpp], which is not among the sources.  An
    edge-vertex impact is [{time, edge_index, vertex_index, alpha}], an
    edge-edge impact is [{time, edge_a, alpha_a, edge_b, alpha_b}]. *)
Record EdgeVertexImpact : Type := EV {
  ev_time : Q;
  edge_index : nat;
  alpha : Q;
  vertex_index : nat
}.

Record EdgeEdgeImpact : Type := EE {
  ee_time : Q;
  edge_a : nat;
  alpha_a : Q;
  edge_b : nat;
  alpha_b : Q
}.

(** Modelled from the spec: [compare_impacts_by_time] is declared in a
    header that is not among the sources.  Impacts are ordered by
    ascending time, ties broken by [(edge_index, vertex_index)]
    lexicographically; as a comparator for [std::sort] it is the strict
    order. *)
Definition compare_impacts_by_time (a b : EdgeVertexImpact) : bool :=
  Qlt_bool (ev_time a) (ev_time b)
  || (Qeq_bool (ev_time a) (ev_time b)
      && ((edge_index a <? edge_index b)%nat
          || ((edge_index a =? edge_index b)%nat
              && (vertex_index a <? vertex_index b)%nat))).

(** [std::sort(first, last, comp)]: the elements in an order in which no
    element is placed before one that [comp] puts before it. *)
(** Two impacts in the order of the list: the first is not later than
    the second, and at equal times its [(edge_index, vertex_index)] is
    not the greater one. *)
Definition in_order (a b : EdgeVertexImpact) : Prop :=
  (ev_time a <= ev_time b)%Q ∧
  ((ev_time a == ev_time b)%Q →
   edge_index a < edge_index b ∨
   (edge_index a = edge_index b ∧ vertex_index a ≤ vertex_index b)).

Definition not_after {A : Type} (comp : A → A → bool) : relation A :=
  λ a b, comp b a = false.

#[global] Instance not_after_dec {A : Type} (comp : A → A → bool) (a b : A)
  : Decision (not_after comp a b) := bool_eq_dec (comp b a) false.

Definition std_sort {A : Type} (comp : A → A → bool) (l : list A) : list A :=
  merge_sort (not_after comp) l.

Section Lifting.

(** Where along the second edge the struck vertex lies: computed from
    the pose of the other body at the time of impact, by code that is not
    among the sources. *)
Variable alpha_on_edge : EdgeVertexImpact → nat → Q.

(** Modelled from the spec: [convert_edge_vertex_to_edge_edge_impacts] is
    not among the sources.  Each edge-vertex impact is lifted: for an
    edge [e'] to which the struck vertex belongs, the impact
    [(time, e, alpha, e', alpha')] is emitted. *)
Definition lift_impact (edges : list (nat * nat)) (ev : EdgeVertexImpact)
  : list EdgeEdgeImpact :=
  omap (λ '(e', (v0, v1)),
          if ((v0 =? vertex_index ev) || (v1 =? vertex_index ev))%nat
          then Some (EE (ev_time ev) (edge_index ev) (alpha ev)
                        e' (alpha_on_edge ev e'))
          else None)
       (imap pair edges).

Definition convert_edge_vertex_to_edge_edge_impacts
    (edges : list (nat * nat)) (ev_impacts : list EdgeVertexImpact)
  : list EdgeEdgeImpact :=
  ev_impacts ≫= lift_impact edges.

End Lifting.

Definition involves (e : nat) (imp : EdgeEdgeImpact) : bool :=
  ((edge_a imp =? e) || (edge_b imp =? e))%nat.

(** The earliest impact involving edge [e] among [impacts], whose first
    element has index [i]; [best] is the earliest one seen so far, with
    its index.  Among impacts of equal time the first one is kept. *)
Fixpoint earliest_from (e : nat) (i : nat) (impacts : list EdgeEdgeImpact)
    (best : option (nat * EdgeEdgeImpact)) : option (nat * EdgeEdgeImpact) :=
  match impacts with
  | [] => best
  | imp :: rest =>
    let best' :=
      if involves e imp then
        match best with
        | None => Some (i, imp)
        | Some (_, b) =>
            if Qlt_bool (ee_time imp) (ee_time b) then Some (i, imp) else best
        end
      else best in
    earliest_from e (S i) rest best'
  end.

Definition earliest_impact (e : nat) (impacts : list EdgeEdgeImpact) : Z :=
  match earliest_from e 0 impacts None with
  | Some (i, _) => Z.of_nat i
  | None => (-1)%Z
  end.

(** Modelled from the spec: [prune_impacts] is not among the sources.
    For each edge [e] the index of the earliest edge-edge impact
    involving [e] is recorded in the impact map, [-1] when there is none;
    the value returned is the number of edges that have an impact. *)
Definition prune_impacts (all_impacts : list EdgeEdgeImpact)
    (edge_impact_map : list Z) : Z * list Z :=
  let pruned := imap (λ e _, earliest_impact e all_impacts) edge_impact_map in
  (Z.of_nat (length (filter (λ k, k ≠ (-1)%Z) pruned)), pruned).

End Impacts.

(** ** The scene and its impacts: [State] *)

Module State.

Import Impacts.

Inductive DetectionMethod : Type := BRUTE_FORCE | HASH_GRID.

(** The members of [State] that [state.cpp] reads or writes. *)
Record t : Type := Build {
  vertices : list (Q * Q);
  edges : list (nat * nat);
  displacements : list (Q * Q);
  opt_displacements : list (Q * Q);
  volumes : list Q;
  edge_impact_map : list Z;
  volume_grad : MatrixX Q;
  ev_impacts : list EdgeVertexImpact;
  ee_impacts : list EdgeEdgeImpact;
  num_pruned_impacts : Z;
  detection_method : DetectionMethod;
  canvas_width : Q;
  canvas_height : Q;
  current_ev_impact : Z;
  current_edge : Z;
  min_edge_width : Q;
  time : Q;
  opt_time : Q;
  selected_displacements : list Z;
  selected_points : list Z
}.

Definition set_vertices (x : list (Q * Q)) (s : t) : t :=
  Build x (edges s) (displacements s) (opt_displacements s) (volumes s)
    (edge_impact_map s) (volume_grad s) (ev_impacts s) (ee_impacts s)
    (num_pruned_impacts s) (detection_method s) (canvas_width s)
    (canvas_height s) (current_ev_impact s) (current_edge s) (min_edge_width
    s) (time s) (opt_time s) (selected_displacements s) (selected_points s).

Definition set_edges (x : list (nat * nat)) (s : t) : t :=
  Build (vertices s) x (displacements s) (opt_displacements s) (volumes s)
    (edge_impact_map s) (volume_grad s) (ev_impacts s) (ee_impacts s)
    (num_pruned_impacts s) (detection_method s) (canvas_width s)
    (canvas_height s) (current_ev_impact s) (current_edge s) (min_edge_width
    s) (time s) (opt_time s) (selected_displacements s) (selected_points s).

Definition set_displacements (x : list (Q * Q)) (s : t) : t :=
  Build (vertices s) (edges s) x (opt_displacements s) (volumes s)
    (edge_impact_map s) (volume_grad s) (ev_impacts s) (ee_impacts s)
    (num_pruned_impacts s) (detection_method s) (canvas_width s)
    (canvas_height s) (current_ev_impact s) (current_edge s) (min_edge_width
    s) (time s) (opt_time s) (selected_displacements s) (selected_points s).

Definition set_opt_displacements (x : list (Q * Q)) (s : t) : t :=
  Build (vertices s) (edges s) (displacements s) x (volumes s)
    (edge_impact_map s) (volume_grad s) (ev_impacts s) (ee_impacts s)
    (num_pruned_impacts s) (detection_method s) (canvas_width s)
    (canvas_height s) (current_ev_impact s) (current_edge s) (min_edge_width
    s) (time s) (opt_time s) (selected_displacements s) (selected_points s).

Definition set_volumes (x : list Q) (s : t) : t :=
  Build (vertices s) (edges s) (displacements s) (opt_displacements s) x
    (edge_impact_map s) (volume_grad s) (ev_impacts s) (ee_impacts s)
    (num_pruned_impacts s) (detection_method s) (canvas_width s)
    (canvas_height s) (current_ev_impact s) (current_edge s) (min_edge_width
    s) (time s) (opt_time s) (selected_displacements s) (selected_points s).

Definition set_edge_impact_map (x : list Z) (s : t) : t :=
  Build (vertices s) (edges s) (displacements s) (opt_displacements s)
    (volumes s) x (volume_grad s) (ev_impacts s) (ee_impacts s)
    (num_pruned_impacts s) (detection_method s) (canvas_width s)
    (canvas_height s) (current_ev_impact s) (current_edge s) (min_edge_width
    s) (time s) (opt_time s) (selected_displacements s) (selected_points s).

Definition set_volume_grad (x : MatrixX Q) (s : t) : t :=
  Build (vertices s) (edges s) (displacements s) (opt_displacements s)
    (volumes s) (edge_impact_map s) x (ev_impacts s) (ee_impacts s)
    (num_pruned_impacts s) (detection_method s) (canvas_width s)
    (canvas_height s) (current_ev_impact s) (current_edge s) (min_edge_width
    s) (time s) (opt_time s) (selected_displacements s) (selected_points s).

Definition set_ev_impacts (x : list EdgeVertexImpact) (s : t) : t :=
  Build (vertices s) (edges s) (displacements s) (opt_displacements s)
    (volumes s) (edge_impact_map s) (volume_grad s) x (ee_impacts s)
    (num_pruned_impacts s) (detection_method s) (canvas_width s)
    (canvas_height s) (current_ev_impact s) (current_edge s) (min_edge_width
    s) (time s) (opt_time s) (selected_displacements s) (selected_points s).

Definition set_ee_impacts (x : list EdgeEdgeImpact) (s : t) : t :=
  Build (vertices s) (edges s) (displacements s) (opt_displacements s)
    (volumes s) (edge_impact_map s) (volume_grad s) (ev_impacts s) x
    (num_pruned_impacts s) (detection_method s) (canvas_width s)
    (canvas_height s) (current_ev_impact s) (current_edge s) (min_edge_width
    s) (time s) (opt_time s) (selected_displacements s) (selected_points s).

Definition set_num_pruned_impacts (x : Z) (s : t) : t :=
  Build (vertices s) (edges s) (displacements s) (opt_displacements s)
    (volumes s) (edge_impact_map s) (volume_grad s) (ev_impacts s)
    (ee_impacts s) x (detection_method s) (canvas_width s) (canvas_height s)
    (current_ev_impact s) (current_edge s) (min_edge_width s) (time s)
    (opt_time s) (selected_displacements s) (selected_points s).

Definition set_detection_method (x : DetectionMethod) (s : t) : t :=
  Build (vertices s) (edges s) (displacements s) (opt_displacements s)
    (volumes s) (edge_impact_map s) (volume_grad s) (ev_impacts s)
    (ee_impacts s) (num_pruned_impacts s) x (canvas_width s) (canvas_height
    s) (current_ev_impact s) (current_edge s) (min_edge_width s) (time s)
    (opt_time s) (selected_displacements s) (selected_points s).

Definition set_canvas_width (x : Q) (s : t) : t :=
  Build (vertices s) (edges s) (displacements s) (opt_displacements s)
    (volumes s) (edge_impact_map s) (volume_grad s) (ev_impacts s)
    (ee_impacts s) (num_pruned_impacts s) (detection_method s) x
    (canvas_height s) (current_ev_impact s) (current_edge s) (min_edge_width
    s) (time s) (opt_time s) (selected_displacements s) (selected_points s).

Definition set_canvas_height (x : Q) (s : t) : t :=
  Build (vertices s) (edges s) (displacements s) (opt_displacements s)
    (volumes s) (edge_impact_map s) (volume_grad s) (ev_impacts s)
    (ee_impacts s) (num_pruned_impacts s) (detection_method s) (canvas_width
    s) x (current_ev_impact s) (current_edge s) (min_edge_width s) (time s)
    (opt_time s) (selected_displacements s) (selected_points s).

Definition set_current_ev_impact (x : Z) (s : t) : t :=
  Build (vertices s) (edges s) (displacements s) (opt_displacements s)
    (volumes s) (edge_impact_map s) (volume_grad s) (ev_impacts s)
    (ee_impacts s) (num_pruned_impacts s) (detection_method s) (canvas_width
    s) (canvas_height s) x (current_edge s) (min_edge_width s) (time s)
    (opt_time s) (selected_displacements s) (selected_points s).

Definition set_current_edge (x : Z) (s : t) : t :=
  Build (vertices s) (edges s) (displacements s) (opt_displacements s)
    (volumes s) (edge_impact_map s) (volume_grad s) (ev_impacts s)
    (ee_impacts s) (num_pruned_impacts s) (detection_method s) (canvas_width
    s) (canvas_height s) (current_ev_impact s) x (min_edge_width s) (time s)
    (opt_time s) (selected_displacements s) (selected_points s).

Definition set_min_edge_width (x : Q) (s : t) : t :=
  Build (vertices s) (edges s) (displacements s) (opt_displacements s)
    (volumes s) (edge_impact_map s) (volume_grad s) (ev_impacts s)
    (ee_impacts s) (num_pruned_impacts s) (detection_method s) (canvas_width
    s) (canvas_height s) (current_ev_impact s) (current_edge s) x (time s)
    (opt_time s) (selected_displacements s) (selected_points s).

Definition set_time (x : Q) (s : t) : t :=
  Build (vertices s) (edges s) (displacements s) (opt_displacements s)
    (volumes s) (edge_impact_map s) (volume_grad s) (ev_impacts s)
    (ee_impacts s) (num_pruned_impacts s) (detection_method s) (canvas_width
    s) (canvas_height s) (current_ev_impact s) (current_edge s)
    (min_edge_width s) x (opt_time s) (selected_displacements s)
    (selected_points s).

Definition set_opt_time (x : Q) (s : t) : t :=
  Build (vertices s) (edges s) (displacements s) (opt_displacements s)
    (volumes s) (edge_impact_map s) (volume_grad s) (ev_impacts s)
    (ee_impacts s) (num_pruned_impacts s) (detection_method s) (canvas_width
    s) (canvas_height s) (current_ev_impact s) (current_edge s)
    (min_edge_width s) (time s) x (selected_displacements s)
    (selected_points s).

Definition set_selected_displacements (x : list Z) (s : t) : t :=
  Build (vertices s) (edges s) (displacements s) (opt_displacements s)
    (volumes s) (edge_impact_map s) (volume_grad s) (ev_impacts s)
    (ee_impacts s) (num_pruned_impacts s) (detection_method s) (canvas_width
    s) (canvas_height s) (current_ev_impact s) (current_edge s)
    (min_edge_width s) (time s) (opt_time s) x (selected_points s).

Definition set_selected_points (x : list Z) (s : t) : t :=
  Build (vertices s) (edges s) (displacements s) (opt_displacements s)
    (volumes s) (edge_impact_map s) (volume_grad s) (ev_impacts s)
    (ee_impacts s) (num_pruned_impacts s) (detection_method s) (canvas_width
    s) (canvas_height s) (current_ev_impact s) (current_edge s)
    (min_edge_width s) (time s) (opt_time s) (selected_displacements s) x.

(** [kDIM] *)
Definition kDIM : nat := 2.

(** [State::State()]; the containers start empty, and the detection
    method is the one the class declaration gives. *)
Definition init (method : DetectionMethod) : t :=
  Build [] [] [] [] [] [] (Eigen.Matrix 0 []) [] [] 0%Z method 10%Q 10%Q
        (-1)%Z (-1)%Z 0%Q 0%Q 0%Q [] [].

(** What [io::read_scene] reads from a scene file. *)
Record Scene : Type := {
  scene_vertices : list (Q * Q);
  scene_edges : list (nat * nat);
  scene_displacements : list (Q * Q)
}.

Section Operations.

(** What the entries added by a [conservativeResize] hold before they
    are assigned. *)
Variable uninit_row : Q * Q.
Variable uninit_edge : nat * nat.
Variable uninit_index : Z.
Variable uninit_volume : Q.

(** [ccd::detect_edge_vertex_collisions], the broad and narrow phase over
    the scene, which is not among the sources: from the vertices,
    displacements, edges, the previous content of the impact list and the
    detection method to the impacts found. *)
Variable ccd_detect_edge_vertex_collisions :
  list (Q * Q) → list (Q * Q) → list (nat * nat) →
  list EdgeVertexImpact → DetectionMethod → list EdgeVertexImpact.

Variable alpha_on_edge : EdgeVertexImpact → nat → Q.

Definition reset_impacts (s : t) : t :=
  let s := set_volumes (Eigen.resize_setConstant (length (edges s)) 0%Q) s in
  let s := set_edge_impact_map
             (Eigen.resize_setConstant (length (edges s)) (-1)%Z) s in
  let s := set_volume_grad
             (Eigen.Zero (length (vertices s) * 2) (length (edges s))) s in
  let s := set_ev_impacts [] s in
  set_ee_impacts [] s.

Definition reset_scene (s : t) : t :=
  let s := reset_impacts s in
  let s := set_current_edge (-1)%Z s in
  let s := set_current_ev_impact (-1)%Z s in
  let s := set_time 0%Q s in
  let s := set_opt_time 0%Q s in
  let s := set_selected_displacements [] s in
  let s := set_selected_points [] s in
  set_opt_displacements
    (Eigen.resize_setConstant (length (displacements s)) (0%Q, 0%Q)) s.

(** [load_scene], from the scene that [io::read_scene] has read.  The
    sum [vertices + displacements] needs matrices of the same size, and
    the column-wise minimum needs a row. *)
Definition load_scene (scene : Scene) (s : t) : result t :=
  let s := set_vertices (scene_vertices scene) s in
  let s := set_edges (scene_edges scene) s in
  let s := set_displacements (scene_displacements scene) s in
  if negb (length (vertices s) =? length (displacements s))%nat
  then Raise AssertionFailed
  else
    let all_vertices :=
      vertices s ++ zip_with Eigen.row_add (vertices s) (displacements s) in
    match all_vertices with
    | [] => Raise AssertionFailed
    | first :: others =>
      let v_min := Eigen.colwise_minCoeff first others in
      let v_max := Eigen.colwise_maxCoeff first others in
      let center := Eigen.colwise_mean all_vertices in
      let bbox := Eigen.row_sub v_max v_min in
      if Qlt_bool (canvas_width s) bbox.1 || Qlt_bool (canvas_height s) bbox.2
      then
        match std_min (fdiv (canvas_width s * (1 # 2)) bbox.1)
                      (fdiv (canvas_height s * (1 # 2)) bbox.2) with
        | Finite scale =>
          let s := set_vertices
                     ((λ v, Eigen.row_scale scale (Eigen.row_sub v center))
                        <$> vertices s) s in
          let s := set_displacements
                     (Eigen.row_scale scale <$> displacements s) s in
          Ok (reset_scene s)
        | _ => Raise NonFinite
        end
      else Ok (reset_scene s)
    end.

Definition add_vertex (position : Q * Q) (s : t) : t :=
  let lastid := length (vertices s) in
  let s := set_vertices
             (<[lastid := position]>
                (Eigen.conservativeResize (lastid + 1) uninit_row (vertices s)))
             s in
  let s := set_displacements
             (<[lastid := (0%Q, - (1 # 10))%Q]>
                (Eigen.conservativeResize (lastid + 1) uninit_row
                   (displacements s)))
             s in
  let s := set_opt_displacements
             (Eigen.setZero2
                (Eigen.conservativeResize (lastid + 1) uninit_row
                   (opt_displacements s)))
             s in
  reset_impacts s.

Definition add_edges (new_edges : list (nat * nat)) (s : t) : t :=
  let lastid := length (edges s) in
  let resized :=
    Eigen.conservativeResize (lastid + length new_edges) uninit_edge (edges s) in
  let s := set_edges
             (foldl (λ acc ir, <[(lastid + ir.1)%nat := ir.2]> acc) resized
                    (imap pair new_edges))
             s in
  let s := set_edge_impact_map
             (Eigen.conservativeResize (lastid + length new_edges) uninit_index
                (edge_impact_map s))
             s in
  let s := set_volumes
             (Eigen.conservativeResize (lastid + length new_edges)
                uninit_volume (volumes s))
             s in
  reset_impacts s.

(** [m.row(idx)] checks that the row exists. *)
Definition row_in_range {A : Type} (idx : Z) (m : list A) : bool :=
  (0 <=? idx)%Z && (idx <? Z.of_nat (length m))%Z.

Definition set_vertex_position (vertex_idx : Z) (position : Q * Q) (s : t)
  : result t :=
  if row_in_range vertex_idx (vertices s) then
    let s := set_vertices (<[Z.to_nat vertex_idx := position]> (vertices s)) s in
    Ok (reset_impacts s)
  else Raise AssertionFailed.

Definition move_vertex (vertex_idx : Z) (delta : Q * Q) (s : t) : result t :=
  if row_in_range vertex_idx (vertices s) then
    let s := set_vertices
               (alter (λ r, Eigen.row_add r delta) (Z.to_nat vertex_idx)
                      (vertices s)) s in
    Ok (reset_impacts s)
  else Raise AssertionFailed.

Definition move_displacement (vertex_idx : Z) (delta : Q * Q) (s : t)
  : result t :=
  if row_in_range vertex_idx (displacements s) then
    let s := set_displacements
               (alter (λ r, Eigen.row_add r delta) (Z.to_nat vertex_idx)
                      (displacements s)) s in
    Ok (reset_impacts s)
  else Raise AssertionFailed.

(** [get_edge_impact]: the impact that the map records for an edge. *)
Definition get_edge_impact (edge_id : nat) (s : t) : option EdgeEdgeImpact :=
  k ← edge_impact_map s !! edge_id;
  if (k <? 0)%Z then None else ee_impacts s !! Z.to_nat k.

Definition detect_edge_vertex_collisions (s : t) : t :=
  let s := set_ev_impacts
             (ccd_detect_edge_vertex_collisions (vertices s) (displacements s)
                (edges s) (ev_impacts s) (detection_method s)) s in
  let s := set_ev_impacts
             (std_sort compare_impacts_by_time (ev_impacts s)) s in
  let s := set_ee_impacts
             (convert_edge_vertex_to_edge_edge_impacts alpha_on_edge
                (edges s) (ev_impacts s)) s in
  let pruned := prune_impacts (ee_impacts s) (edge_impact_map s) in
  let s := set_edge_impact_map pruned.2 s in
  set_num_pruned_impacts pruned.1 s.

(** The operations that change the scene. *)
Inductive operation : Type :=
| AddVertex (position : Q * Q)
| AddEdges (new_edges : list (nat * nat))
| SetVertexPosition (vertex_idx : Z) (position : Q * Q)
| MoveVertex (vertex_idx : Z) (delta : Q * Q)
| MoveDisplacement (vertex_idx : Z) (delta : Q * Q)
| LoadScene (scene : Scene)
| ResetScene.

Definition apply (op : operation) (s : t) : result t :=
  match op with
  | AddVertex position => Ok (add_vertex position s)
  | AddEdges new_edges => Ok (add_edges new_edges s)
  | SetVertexPosition i position => set_vertex_position i position s
  | MoveVertex i delta => move_vertex i delta s
  | MoveDisplacement i delta => move_displacement i delta s
  | LoadScene scene => load_scene scene s
  | ResetScene => Ok (reset_scene s)
  end.

(** [all_vertices << vertices, vertices + displacements] for a scene. *)
Definition all_vertices_of (scene : Scene) : list (Q * Q) :=
  scene_vertices scene
  ++ zip_with Eigen.row_add (scene_vertices scene) (scene_displacements scene).

(** The impacts of a scene in which nothing has been detected yet. *)
Definition cleared_impacts (s : t) : Prop :=
  ev_impacts s = [] ∧ ee_impacts s = [] ∧
  volumes s = replicate (length (edges s)) 0%Q ∧
  edge_impact_map s = replicate (length (edges s)) (-1)%Z ∧
  volume_grad s = Eigen.Zero (length (vertices s) * kDIM) (length (edges s)).

End Operations.

(** *** A small scene *)

(** Four vertices and two edges, added one by one to the empty scene. *)
Definition two_edges : t :=
  add_edges (0, 0)%nat 0%Z 0%Q [(0, 1); (2, 3)]%nat
    (add_vertex (0, 0)%Q (1, 1)%Q
       (add_vertex (0, 0)%Q (0, 1)%Q
          (add_vertex (0, 0)%Q (1, 0)%Q
             (add_vertex (0, 0)%Q (0, 0)%Q (init BRUTE_FORCE))))).

(** A detection in which vertex [2] strikes edge [0] at time [1/2] and
    vertex [0] strikes edge [1] at time [1/4]. *)
Definition two_impacts
    (_ _ : list (Q * Q)) (_ : list (nat * nat)) (_ : list EdgeVertexImpact)
    (_ : DetectionMethod) : list EdgeVertexImpact :=
  [EV (1 # 2) 0 (1 # 2) 2; EV (1 # 4) 1 0 0].


End State.

(** ** JSON values *)

(** [nlohmann::json], as far as the code uses it. *)
#[warnings="-register-all"]
Inductive json : Type :=
| JNull
| JBool (b : bool)
| JInt (n : Z)
| JFloat (x : Q)
| JString (s : string)
| JArray (elements : list json)
| JObject (members : gmap string json).

(** A scalar type [T] of the serialisation templates: how [json(T)]
    stores a value and what [json::get<T>] reads back. *)
Class JsonScalar (T : Type) : Type := {
  json_of : T → json;
  json_get : json → result T
}.

(** [double]: stored as a float; [get<double>] also accepts an integer. *)
#[global] Instance double_scalar : JsonScalar Q := {
  json_of x := JFloat x;
  json_get j :=
    match j with
    | JFloat x => Ok x
    | JInt n => Ok (inject_Z n)
    | _ => Raise JsonTypeError
    end
}.

(** [int]: stored as an integer; [get<int>] truncates a float. *)
#[global] Instance int_scalar : JsonScalar Z := {
  json_of n := JInt n;
  json_get j :=
    match j with
    | JInt n => Ok n
    | JFloat x => Ok (Qnum x ÷ Zpos (Qden x))%Z
    | _ => Raise JsonTypeError
    end
}.

(** ** Serialisation of vectors and matrices ([ccd::io]) *)

Module Io.

Section Serialize.

Context {T : Type} `{JsonScalar T}.

(** [json.get<std::vector<T>>()] *)
Fixpoint get_elements (l : list json) : result (list T) :=
  match l with
  | [] => Ok []
  | j :: rest =>
    x ← json_get j;
    xs ← get_elements rest;
    Ok (x :: xs)
  end.

Definition get_vector (j : json) : result (list T) :=
  match j with
  | JArray l => get_elements l
  | _ => Raise JsonTypeError
  end.

(** [json.get<std::vector<std::vector<T>>>()] *)
Fixpoint get_rows (l : list json) : result (list (list T)) :=
  match l with
  | [] => Ok []
  | j :: rest =>
    row ← get_vector j;
    others ← get_rows rest;
    Ok (row :: others)
  end.

Definition get_vector_of_vectors (j : json) : result (list (list T)) :=
  match j with
  | JArray l => get_rows l
  | _ => Raise JsonTypeError
  end.

(** [to_json(const Eigen::VectorX<T>&)] *)
Definition to_json_vector (vector : list T) : json :=
  JArray (json_of <$> vector).

(** [to_json(const Eigen::MatrixX<T>&)]: one array per row, holding the
    [cols] entries of the row. *)
Definition to_json (matrix : MatrixX T) : json :=
  JArray ((λ row, JArray (json_of <$> row)) <$> Eigen.coeffs matrix).

(** [from_json(const json&, Eigen::VectorX<T>&)]: the vector is
    overwritten by the list read. *)
Definition from_json_vector (j : json) (vector : list T) : result (list T) :=
  get_vector j.

(** [from_json(const json&, Eigen::MatrixX<T>&)]: [matrix] is the
    output argument as the caller passes it; the result is what it holds
    afterwards. *)
Definition from_json (j : json) (matrix : MatrixX T) : result (MatrixX T) :=
  list ← get_vector_of_vectors j;
  match list with
  | [] => Ok matrix
  | first :: _ =>
    let num_cols := length first in
    if forallb (λ row, (length row =? num_cols)%nat) list
    then Ok (Eigen.Matrix num_cols list)
    else Raise AssertionFailed
  end.

End Serialize.

End Io.

(** ** The distance-barrier rigid-body problem *)

Module DistanceBarrierRBProblem.

(** [Multiprecision(value, precision)]: a number with its precision in
    bits. *)
Record Multiprecision : Type := MP { mp_value : xdouble; mp_precision : Z }.

(** [std::numeric_limits<double>::infinity()] *)
Definition infinity : xdouble := PlusInf.

Section Problem.

(** The base class [RigidBodyProblem], the assembler and the constraint
    are not among the sources; the problem uses of them what follows. *)
Variable RigidBodyProblem : Type.
(** [RigidBodyProblem::state()], a JSON object. *)
Variable base_state : RigidBodyProblem → gmap string json.
(** [RigidBodyProblem::simulation_step] and [take_step]. *)
Variable base_simulation_step : Q → RigidBodyProblem → bool * RigidBodyProblem.
Variable base_take_step : list Q → Q → RigidBodyProblem → bool * RigidBodyProblem.
(** [m_assembler.m_pose_to_dof * poses_to_dofs(m_assembler.rb_poses_t0())] *)
Variable dofs_t0 : RigidBodyProblem → list Q.
(** [m_assembler.world_vertices(m_assembler.m_dof_to_pose * sigma) - vertices_t0] *)
Variable displacements_of : RigidBodyProblem → list Q → MatrixX Q.
(** [constraint_.debug_compute_distances(uk, d)] *)
Variable debug_compute_distances : RigidBodyProblem → MatrixX Q → list Q.
(** [constraint_.min_distance] *)
Variable constraint_min_distance : RigidBodyProblem → Q.
(** A default-constructed [Multiprecision]. *)
Variable Multiprecision_default : Multiprecision.

Record t : Type := Build {
  base : RigidBodyProblem;
  debug_min_distance_ : Q
}.

(** The distances of the candidates of the configuration [sigma]. *)
Definition distances (p : t) (sigma : list Q) : list Q :=
  let uk := displacements_of (base p) sigma in
  debug_compute_distances (base p) uk.

Definition debug_min_distance (p : t) (sigma : list Q) : Q :=
  match distances p sigma with
  | first :: others => Eigen.minCoeff first others
  | [] => (-1)%Q
  end.

Definition state (p : t) : gmap string json :=
  let json := base_state (base p) in
  if Qlt_bool (debug_min_distance_ p) 0
  then <["min_distance" := JNull]> json
  else <["min_distance" := JFloat (debug_min_distance_ p)]> json.

Definition simulation_step (time_step : Q) (p : t) : bool * t :=
  let '(has_collision, b) := base_simulation_step time_step (base p) in
  let p := Build b (debug_min_distance_ p) in
  let sigma := dofs_t0 (base p) in
  let p := Build (base p) (debug_min_distance p sigma) in
  let has_collision :=
    if Qle_bool 0 (debug_min_distance_ p)
    then if Qle_bool (debug_min_distance_ p) (constraint_min_distance (base p))
         then true else has_collision
    else has_collision in
  (has_collision, p).

Definition take_step (sigma : list Q) (time_step : Q) (p : t) : bool * t :=
  let p := Build (base p) (debug_min_distance p sigma) in
  let '(r, b) := base_take_step sigma time_step (base p) in
  (r, Build b (debug_min_distance_ p)).

(** The distances that the last evaluation of the minimum distance has
    seen: those of the configuration given to [take_step], or those of
    the poses at the start of the step after [simulation_step]. *)
Inductive last_evaluation : t → list Q → Prop :=
| after_take_step p sigma time_step :
    last_evaluation (take_step sigma time_step p).2 (distances p sigma)
| after_simulation_step p time_step :
    let b := (base_simulation_step time_step (base p)).2 in
    last_evaluation (simulation_step time_step p).2
      (distances (Build b (debug_min_distance_ p)) (dofs_t0 b)).

(** [eval_mp_g]: the evaluation of the constraints is commented out;
    what is left resizes the empty result to one entry and stores
    infinity at 256 bits of precision. *)
Definition eval_mp_g (sigma : list Q) : list Multiprecision :=
  let g_uk := [] in
  let g_uk := Eigen.conservativeResize 1 Multiprecision_default g_uk in
  <[0%nat := MP infinity 256]> g_uk.

End Problem.

End DistanceBarrierRBProblem.

(** ** Views of the scene and sequences of operations *)

Module StateViews.

Import State.

(** [a + b * t] on matrices with two columns; the sum needs as many rows
    in [b] as in [a]. *)
Definition plus_scaled (a b : list (Q * Q)) (t : Q) : result (list (Q * Q)) :=
  if (length a =? length b)%nat
  then Ok (zip_with (λ v u, Eigen.row_add v (Eigen.row_scale t u)) a b)
  else Raise AssertionFailed.

(** [vertices + displacements * double(time)] *)
Definition get_vertex_at_time (s : State.t) : result (list (Q * Q)) :=
  plus_scaled (vertices s) (displacements s) (time s).

(** [vertices + opt_displacements * double(opt_time)] *)
Definition get_opt_vertex_at_time (s : State.t) : result (list (Q * Q)) :=
  plus_scaled (vertices s) (opt_displacements s) (opt_time s).

(** [m.col(c)]: the column must exist. *)
Definition col (m : MatrixX Q) (c : nat) : result (list Q) :=
  if (c <? Eigen.cols m)%nat then
    match mapM (λ row : list Q, row !! c) (Eigen.coeffs m) with
    | Some column => Ok column
    | None => Raise AssertionFailed
    end
  else Raise AssertionFailed.

Section Views.

(** What a matrix holds after a [resize] that changes its size. *)
Variable uninit_row : Q * Q.

(** [grad.resize(grad.rows() / kDIM, kDIM)] on a column: the storage is
    column by column, so that when the number of entries stays the same
    the first half of the column becomes the first column and the second
    half the second column. *)
Definition resize_to_rows (column : list Q) : list (Q * Q) :=
  let h := (length column / kDIM)%nat in
  if (h * kDIM =? length column)%nat
  then zip (take h column) (drop h column)
  else replicate h uninit_row.

Definition get_volume_grad (s : State.t) : result (list (Q * Q)) :=
  if (current_edge s <? 0)%Z || (Eigen.cols (volume_grad s) =? 0)%nat
  then Ok (replicate (length (vertices s)) (0%Q, 0%Q))
  else
    grad ← col (volume_grad s) (Z.to_nat (current_edge s));
    Ok (resize_to_rows grad).

End Views.



(** The matrices of the scene have one row per vertex. *)
Definition rows_agree (s : State.t) : Prop :=
  length (displacements s) = length (vertices s) ∧
  length (opt_displacements s) = length (vertices s).

(** Two matrices with two columns hold the same numbers. *)
Definition same_rows (a b : list (Q * Q)) : Prop :=
  Forall2 (λ x y, (x.1 == y.1)%Q ∧ (x.2 == y.2)%Q) a b.

Section Sequences.

Variable uninit_row : Q * Q.
Variable uninit_edge : nat * nat.
Variable uninit_index : Z.
Variable uninit_volume : Q.

(** The operations of a list, one after the other; the first failure
    ends the sequence. *)
Fixpoint run (ops : list operation) (s : State.t) : result State.t :=
  match ops with
  | [] => Ok s
  | op :: rest =>
      s' ← apply uninit_row uninit_edge uninit_index uninit_volume op s;
      run rest s'
  end.

End Sequences.


End StateViews.

(** ** Jacobian and Hessians of the barrier constraints *)

Module BarrierDerivatives.

(** A candidate pair of the broad phase, by global indices. *)
Record EdgeVertexCandidate : Type := EVCandidate {
  edge_index : Z;
  vertex_index : Z
}.

(** [RB2Candidate]: the two bodies of a candidate and the local indices
    of the vertex and of the end points of the edge. *)
Record RB2Candidate : Type := RB2 {
  vertex_body_id : Z;
  edge_body_id : Z;
  vertex_local_id : Z;
  edge0_local_id : Z;
  edge1_local_id : Z
}.

(** [Eigen::SparseMatrix<double>]: the size and the stored entries. *)
Record SparseMatrix : Type := Sparse {
  sp_rows : nat;
  sp_cols : nat;
  sp_entries : gmap (Z * Z) Q
}.

(** [v.head(n)] and [v.tail(n)] need [n] entries. *)
Definition head (n : nat) (v : list Q) : result (list Q) :=
  if (n <=? length v)%nat then Ok (take n v) else Raise AssertionFailed.

Definition tail (n : nat) (v : list Q) : result (list Q) :=
  if (n <=? length v)%nat then Ok (drop (length v - n) v)
  else Raise AssertionFailed.

(** [m.block(i, start, 1, n) = values] on row [i]: the block must lie
    inside the row. *)
Definition write_block (row : list Q) (start : Z) (values : list Q)
  : result (list Q) :=
  if (0 <=? start)%Z && (start + Z.of_nat (length values) <=? Z.of_nat (length row))%Z
  then Ok (list_inserts (Z.to_nat start) values row)
  else Raise AssertionFailed.

(** One more triplet in a sparse matrix under construction: values at
    the same place are summed. *)
Definition add_triplet (m : gmap (Z * Z) Q) (t : Z * Z * Q) : gmap (Z * Z) Q :=
  partial_alter
    (λ old, Some match old with Some x => (x + t.2)%Q | None => t.2 end)
    t.1 m.

Definition triplet_in_range (rows cols : nat) (t : Z * Z * Q) : bool :=
  (0 <=? t.1.1)%Z && (t.1.1 <? Z.of_nat rows)%Z
  && (0 <=? t.1.2)%Z && (t.1.2 <? Z.of_nat cols)%Z.

(** [SparseMatrix(rows, cols)] followed by [setFromTriplets]. *)
Definition setFromTriplets (rows cols : nat) (triplets : list (Z * Z * Q))
  : result SparseMatrix :=
  if forallb (triplet_in_range rows cols) triplets
  then Ok (Sparse rows cols (foldl add_triplet ∅ triplets))
  else Raise AssertionFailed.

(** The results of [f] on the elements of a list, in order, up to the
    first failure. *)
Fixpoint for_each {A B : Type} (f : A → result B) (l : list A)
  : result (list B) :=
  match l with
  | [] => Ok []
  | x :: rest =>
      y ← f x;
      ys ← for_each f rest;
      Ok (y :: ys)
  end.

Section Core.

(** What the problem takes from its base class, the assembler and the
    automatic differentiation, none of which is among the sources. *)
(** [dim()] and [num_vars_] *)
Variable dim : Z.
Variable num_vars_ : nat.
(** [physics::Pose<double>::dim_to_ndof] *)
Variable dim_to_ndof : Z → nat.
(** [m_assembler.m_edges(e, k)] *)
Variable m_edges : Z → nat → Z.
(** [m_assembler.global_to_local(id, body, local)] *)
Variable global_to_local : Z → Z * Z.
(** [distance_barrier<DDouble1>(sigma, rbc).getGradient()] *)
Variable barrier_gradient : list Q → RB2Candidate → list Q.
(** [distance_barrier<DDouble2>(sigma, rbc).getHessian()(r, c)] *)
Variable barrier_hessian : list Q → RB2Candidate → nat → nat → Q.

Definition extract_local_system (ev_candidate : EdgeVertexCandidate)
  : result RB2Candidate :=
  if negb (dim =? 2)%Z then
    Raise (NotImplementedError
      "DistanceBarrierRBProblem::extract_local_system() has not been implmented for 3D!")
  else
    let v_id := vertex_index ev_candidate in
    let e0_id := m_edges (edge_index ev_candidate) 0 in
    let e1_id := m_edges (edge_index ev_candidate) 1 in
    let '(body_V_id, lv_id) := global_to_local v_id in
    let '(body_E_id, le0_id) := global_to_local e0_id in
    let '(body_E_id, le1_id) := global_to_local e1_id in
    Ok (RB2 body_V_id body_E_id lv_id le0_id le1_id).

(** Row [i] of the Jacobian: the gradient of candidate [i] scattered
    into the row of zeros. *)
Definition jac_g_row (sigma : list Q) (ev_candidate : EdgeVertexCandidate)
  : result (list Q) :=
  let ndof := dim_to_ndof dim in
  rbc ← extract_local_system ev_candidate;
  let gradient := barrier_gradient sigma rbc in
  vertex_part ← head ndof gradient;
  row ← write_block (replicate num_vars_ 0%Q)
          (Z.of_nat ndof * vertex_body_id rbc) vertex_part;
  edge_part ← tail ndof gradient;
  write_block row (Z.of_nat ndof * edge_body_id rbc) edge_part.

(** [eval_jac_g_core]: the matrix starts as zeros and iteration [i] of
    the loop only writes into row [i]. *)
Definition eval_jac_g_core (sigma : list Q)
    (distance_candidates : list EdgeVertexCandidate) : result (MatrixX Q) :=
  if negb (dim =? 2)%Z then
    Raise (NotImplementedError
      "DistanceBarrierRBProblem::eval_jac_g_core() has not been implmented for 3D!")
  else
    rows ← for_each (jac_g_row sigma) distance_candidates;
    Ok (Eigen.Matrix num_vars_ rows).

(** [int bodies[2] = { rbc.vertex_body_id, rbc.edge_body_id }] *)
Definition bodies (rbc : RB2Candidate) (b : nat) : Z :=
  match b with
  | O => vertex_body_id rbc
  | _ => edge_body_id rbc
  end.

(** The four nested loops over [b_i], [b_j], [dim_i] and [dim_j]. *)
Definition local_indices : list (nat * nat * nat * nat) :=
  b_i ← [0; 1]%nat; b_j ← [0; 1]%nat;
  dim_i ← [0; 1; 2]%nat; dim_j ← [0; 1; 2]%nat;
  [(b_i, b_j, dim_i, dim_j)].

Definition hessian_triplet (hessian : nat → nat → Q) (rbc : RB2Candidate)
    (q : nat * nat * nat * nat) : Z * Z * Q :=
  let '(b_i, b_j, dim_i, dim_j) := q in
  ((3 * bodies rbc b_i + Z.of_nat dim_i)%Z,
   (3 * bodies rbc b_j + Z.of_nat dim_j)%Z,
   hessian (3 * b_i + dim_i)%nat (3 * b_j + dim_j)%nat).

Definition global_el_hessian (sigma : list Q)
    (ev_candidate : EdgeVertexCandidate) : result SparseMatrix :=
  rbc ← extract_local_system ev_candidate;
  let hessian := barrier_hessian sigma rbc in
  let triplets := hessian_triplet hessian rbc <$> local_indices in
  setFromTriplets num_vars_ num_vars_ triplets.

Definition eval_hessian_g_core (sigma : list Q)
    (distance_candidates : list EdgeVertexCandidate)
  : result (list SparseMatrix) :=
  if negb (dim =? 2)%Z then
    Raise (NotImplementedError
      "DistanceBarrierRBProblem::eval_hessian_g_core() has not been implmented for 3D!")
  else for_each (global_el_hessian sigma) distance_candidates.

End Core.

End BarrierDerivatives.

(** * Properties *)

(** ** Comparisons of doubles *)

Module DoubleFacts.

Lemma Qlt_bool_iff x y : Qlt_bool x y = true ↔ (x < y)%Q.
Proof.
  unfold Qlt_bool. rewrite negb_true_iff.
  destruct (Qle_bool y x) eqn:Hle.
  - apply Qle_bool_iff in Hle. split; [discriminate|lra].
  - split; [intros _|done].
    apply Qnot_le_lt. intros Hyx. apply Qle_bool_iff in Hyx. congruence.
Qed.

Lemma Qlt_bool_false x y : Qlt_bool x y = false ↔ (y <= x)%Q.
Proof.
  rewrite <- not_true_iff_false, Qlt_bool_iff. split; [apply Qnot_lt_le|lra].
Qed.

End DoubleFacts.

(** ** The certified root finder *)

Module RootFinderFacts.

Import RootFinder.

Section Finder.

Variable f : Interval → Interval.
Variable constraint_predicate : Interval → result bool.
Variable tol : Q.

Local Abbreviation root_finder_loop := (root_finder_loop f constraint_predicate tol).
Local Abbreviation interval_root_finder :=
  (interval_root_finder f constraint_predicate tol).

(** *** Invariants of the search *)

Lemma bisect_within lo hi x :
  Interval.within lo hi x →
  Interval.within lo hi (fst (Interval.bisect x)) ∧
  Interval.within lo hi (snd (Interval.bisect x)).
Proof.
  unfold Interval.within, Interval.bisect, Interval.median; simpl.
  intros (Hlo & Hwf & Hhi).
  assert (Hm1 : (Interval.lower x <= (Interval.lower x + Interval.upper x) / 2)%Q).
  { apply Qle_shift_div_l; lra. }
  assert (Hm2 : ((Interval.lower x + Interval.upper x) / 2 <= Interval.upper x)%Q).
  { apply Qle_shift_div_r; lra. }
  repeat split; lra.
Qed.

(** A root reported by the loop is one of the descendants of the stack:
    any property that bisection preserves holds of it, and it passed the
    three tests of the search. *)
Lemma root_finder_loop_hit (P : Interval → Prop) :
  (∀ x, P x → P (fst (Interval.bisect x)) ∧ P (snd (Interval.bisect x))) →
  ∀ fuel xs x_out x,
    Forall P xs →
    root_finder_loop fuel xs x_out = Some (Ok (true, x)) →
    P x ∧ Interval.zero_in (f x) = true ∧
    Qle_bool (Interval.width x) tol = true ∧
    constraint_predicate x = Ok true.
Proof.
  intros Hbis fuel.
  induction fuel as [|fuel IH]; intros xs x_out x HP Hrun.
  - destruct xs; simpl in Hrun; discriminate.
  - destruct xs as [|y rest]; simpl in Hrun; [discriminate|].
    inversion HP as [|? ? Hy Hrest]; subst.
    destruct (Interval.zero_in (f y)) eqn:Hz; simpl in Hrun.
    + destruct (Qle_bool (Interval.width y) tol) eqn:Hw.
      * destruct (constraint_predicate y) as [[|]|e] eqn:Hc.
        -- injection Hrun as <-. auto.
        -- eapply IH; eauto.
        -- discriminate.
      * destruct (Hbis y Hy) as [Hl Hr].
        eapply IH; [|exact Hrun]. auto.
    + eapply IH; eauto.
Qed.

(** When no root is found the output interval is left as it was. *)
Lemma root_finder_loop_miss fuel :
  ∀ xs x_out x,
    root_finder_loop fuel xs x_out = Some (Ok (false, x)) → x = x_out.
Proof.
  induction fuel as [|fuel IH]; intros xs x_out x Hrun.
  - destruct xs; simpl in Hrun; [|discriminate]. by injection Hrun.
  - destruct xs as [|y rest]; simpl in Hrun; [by injection Hrun|].
    destruct (negb (Interval.zero_in (f y))); [by eapply IH|].
    destruct (Qle_bool (Interval.width y) tol); [|by eapply IH].
    destruct (constraint_predicate y) as [[|]|e]; try discriminate.
    by eapply IH.
Qed.

(** *** Termination *)

(** More fuel never changes a result already reached. *)
Lemma root_finder_loop_more_fuel fuel :
  ∀ extra xs x_out r,
    root_finder_loop fuel xs x_out = Some r →
    root_finder_loop (fuel + extra) xs x_out = Some r.
Proof.
  induction fuel as [|fuel IH]; intros extra xs x_out r Hrun.
  - destruct xs; simpl in Hrun; [|discriminate].
    destruct extra; simpl; done.
  - destruct xs as [|y rest]; simpl in *; [done|].
    destruct (negb (Interval.zero_in (f y))); [by apply IH|].
    destruct (Qle_bool (Interval.width y) tol); [|by apply IH].
    destruct (constraint_predicate y) as [[|]|e]; try done.
    by apply IH.
Qed.

Lemma pow2_S k : (pow2 (S k) == 2 * pow2 k)%Q.
Proof.
  unfold pow2. rewrite Nat2Z.inj_succ, Z.pow_succ_r by lia.
  rewrite inject_Z_mult. reflexivity.
Qed.

Lemma bisect_width x :
  (Interval.width (fst (Interval.bisect x)) == Interval.width x / 2)%Q ∧
  (Interval.width (snd (Interval.bisect x)) == Interval.width x / 2)%Q.
Proof.
  unfold Interval.width, Interval.bisect, Interval.median; simpl.
  split; field.
Qed.

(** An interval no wider than [tol * 2^k] on top of the stack is dealt
    with in some [m <= pops k] steps: either the search stops there with
    a result, or the interval and all its descendants are discarded and
    the search goes on with the rest of the stack. *)
Lemma root_finder_loop_pop k :
  ∀ x rest x_out,
    (Interval.width x <= tol * pow2 k)%Q →
    ∃ m, (m <= pops k)%nat ∧
      ((∃ r, root_finder_loop m (x :: rest) x_out = Some r) ∨
       (∀ n, root_finder_loop (m + n) (x :: rest) x_out
             = root_finder_loop n rest x_out)).
Proof.
  induction k as [|k IH]; intros x rest x_out Hw.
  - exists 1%nat. split; [done|]. simpl.
    destruct (negb (Interval.zero_in (f x))); [by right|].
    assert (Hle : Qle_bool (Interval.width x) tol = true).
    { apply Qle_bool_iff. change (pow2 0) with 1%Q in Hw. lra. }
    rewrite Hle.
    destruct (constraint_predicate x) as [[|]|e]; eauto.
  - assert (Hp : pops (S k) = S (pops k + pops k)).
    { unfold pops. simpl. pose proof (Nat.pow_nonzero 2 k). lia. }
    destruct (negb (Interval.zero_in (f x))) eqn:Hz.
    { exists 1%nat. split; [lia|]. right. intros n. simpl. by rewrite Hz. }
    destruct (Qle_bool (Interval.width x) tol) eqn:Hle.
    { exists 1%nat. split; [lia|]. simpl. rewrite Hz, Hle.
      destruct (constraint_predicate x) as [[|]|e]; eauto. }
    destruct (bisect_width x) as [Hwl Hwr].
    assert (Hhalf : (Interval.width x / 2 <= tol * pow2 k)%Q).
    { apply Qle_shift_div_r; [lra|]. rewrite pow2_S in Hw. lra. }
    destruct (IH (fst (Interval.bisect x)) (snd (Interval.bisect x) :: rest) x_out)
      as (m1 & Hm1 & Hl); [by rewrite Hwl|].
    destruct Hl as [[r Hr] | Hl].
    { exists (S m1). split; [lia|]. left. exists r. simpl. by rewrite Hz, Hle. }
    destruct (IH (snd (Interval.bisect x)) rest x_out)
      as (m2 & Hm2 & Hr); [by rewrite Hwr|].
    exists (S (m1 + m2)). split; [lia|].
    destruct Hr as [[r Hr] | Hr].
    + left. exists r. simpl. rewrite Hz, Hle.
      by rewrite Hl.
    + right. intros n. simpl. rewrite Hz, Hle.
      replace (m1 + m2 + n)%nat with (m1 + (m2 + n))%nat by lia.
      by rewrite Hl.
Qed.

(** Every width is below [tol * 2^k] for some [k] when [tol] is positive. *)
Lemma width_depth (w : Q) :
  (0 < tol)%Q → ∃ k, (w <= tol * pow2 k)%Q.
Proof.
  intros Htol.
  set (q := (w / tol)%Q).
  exists (Z.to_nat (Qnum q)).
  assert (Hq : (q <= pow2 (Z.to_nat (Qnum q)))%Q).
  { unfold pow2. destruct q as [n d]. simpl.
    unfold Qle. simpl. rewrite Z.mul_1_r.
    destruct (Z.le_gt_cases n 0) as [Hn|Hn].
    - replace (Z.to_nat n) with 0%nat by lia. simpl. nia.
    - rewrite Z2Nat.id by lia.
      pose proof (Z.pow_gt_lin_r 2 n ltac:(lia) ltac:(lia)).
      nia. }
  unfold q in Hq at 1.
  assert (Hw : (w == (w / tol) * tol)%Q) by (field; lra).
  rewrite Hw.
  rewrite (Qmult_comm tol).
  apply Qmult_le_compat_r; [exact Hq|lra].
Qed.

(** With a positive tolerance the search returns: some amount of fuel
    yields a result. *)
Lemma interval_root_finder_terminates x0 x_out :
  (0 < tol)%Q →
  ∃ fuel r, interval_root_finder x0 x_out fuel = Some r.
Proof.
  intros Htol.
  destruct (width_depth (Interval.width x0) Htol) as [k Hk].
  destruct (root_finder_loop_pop k x0 [] x_out Hk) as (m & _ & [[r Hr] | Hrest]).
  - by exists m, r.
  - exists (m + 0)%nat. eexists. unfold interval_root_finder.
    rewrite Hrest. reflexivity.
Qed.

End Finder.

End RootFinderFacts.

(** ** Narrow-phase time of impact *)

Module ToiFacts.

Import Toi.

Lemma conservative_toi_hit r toi :
  conservative_toi r = Some (Ok (true, toi)) →
  ∃ x, r = Some (Ok (true, x)) ∧ toi = Interval.lower x.
Proof.
  destruct r as [[[hit x]|e]|]; simpl; intros Heq; try discriminate.
  injection Heq as -> <-. eauto.
Qed.

(** A root found in the domain [[0, e]] is a well-formed interval inside
    the domain. *)
Lemma root_in_domain f inside tol e x_out fuel x :
  (0 <= e)%Q →
  RootFinder.interval_root_finder f inside tol (Interval.make 0 e) x_out fuel
    = Some (Ok (true, x)) →
  Interval.within 0 e x.
Proof.
  intros He Hrun.
  eapply (RootFinderFacts.root_finder_loop_hit f inside tol
            (Interval.within 0 e)); [| |exact Hrun].
  - apply RootFinderFacts.bisect_within.
  - constructor; [|constructor]. unfold Interval.within; simpl. lra.
Qed.

Section Queries.

Context `{K : Kernel}.

Lemma guarded_hit (ok : bool) r toi :
  (if ok then conservative_toi r else Some (Raise AssertionFailed))
    = Some (Ok (true, toi)) →
  ∃ x, r = Some (Ok (true, x)) ∧ toi = Interval.lower x.
Proof. destruct ok; [apply conservative_toi_hit|discriminate]. Qed.

Lemma run_hit q fuel toi :
  run q fuel = Some (Ok (true, toi)) →
  ∃ x, enclosure q fuel = Some (Ok (true, x)) ∧ toi = Interval.lower x.
Proof. destruct q; apply guarded_hit. Qed.

Lemma enclosure_in_domain q fuel x :
  (0 <= search_upper q)%Q →
  enclosure q fuel = Some (Ok (true, x)) →
  Interval.within 0 (search_upper q) x.
Proof. destruct q; simpl; intros He; apply root_in_domain; exact He. Qed.

(** C1.  Whenever a narrow-phase query (edge-vertex, edge-edge or
    face-vertex, on end poses or on pose and displacement) reports a hit,
    the time of impact it stores is the lower end point of the interval
    that the root finder produced, and it lies in [[0,1]], the search
    domain being [[0, earliest_toi]] with [earliest_toi <= 1]. *)
Theorem toi_is_lower_of_enclosure (q : query) (fuel : nat) (toi : Q) :
  (0 <= search_upper q)%Q →
  (search_upper q <= 1)%Q →
  run q fuel = Some (Ok (true, toi)) →
  ∃ x, enclosure q fuel = Some (Ok (true, x)) ∧
       toi = Interval.lower x ∧ (0 <= toi)%Q ∧ (toi <= 1)%Q.
Proof.
  intros Hlo Hhi Hrun.
  destruct (run_hit q fuel toi Hrun) as (x & Henc & ->).
  destruct (enclosure_in_domain q fuel x Hlo Henc) as (H0 & Hwf & H1).
  exists x. repeat split; [exact Henc|exact H0|lra].
Qed.

(** A query returns: with a positive tolerance some amount of fuel gives
    its result. *)
Lemma query_returns (q : query) :
  (0 < tolerance q)%Q → ∃ fuel r, run q fuel = Some r.
Proof.
  intros Htol.
  assert (Hguard : ∀ (ok : bool) (root : nat → option (result (bool * Interval))),
            (∃ fuel r, root fuel = Some r) →
            ∃ fuel r, (if ok then conservative_toi (root fuel)
                       else Some (Raise AssertionFailed)) = Some r).
  { intros ok root (fuel & r & Hr). exists fuel.
    destruct ok; [|eauto]. rewrite Hr.
    destruct r as [[? ?]|?]; simpl; eauto. }
  destruct q; simpl in Htol; apply Hguard;
    by apply RootFinderFacts.interval_root_finder_terminates.
Qed.

End Queries.

(** The perpendicular impact, searched with tolerance [1/4]: the root
    finder returns [[1/4, 1/2]] and the query reports the time [1/4]. *)
Lemma toi_is_lower_of_enclosure_witness :
  ∃ x, enclosure (K := Translation.kernel)
         (EdgeVertexRedon Translation.perpendicular_impact 1 (1 # 4)) 10
       = Some (Ok (true, x)) ∧
       (1 # 4)%Q = Interval.lower x ∧ (0 <= 1 # 4)%Q ∧ (1 # 4 <= 1)%Q.
Proof.
  apply (toi_is_lower_of_enclosure (K := Translation.kernel)
           (EdgeVertexRedon Translation.perpendicular_impact 1 (1 # 4)) 10).
  - simpl. lra.
  - simpl. lra.
  - vm_compute. reflexivity.
Defined.

(** *** The inside test of the edge-edge query *)






Section InsideTest.

Context `{K : Kernel}.

Variables (bodyA : RigidBody) (poseA displacementA : PoseD) (idA : nat).
Variables (bodyB : RigidBody) (poseB displacementB : PoseD) (idB : nat).

Local Abbreviation inside_test :=
  (is_intersection_inside_edges bodyA poseA displacementA idA
     bodyB poseB displacementB idB).





End InsideTest.





End ToiFacts.

(** ** Impact ordering, lifting and pruning *)

Module ImpactsFacts.

Import Impacts DoubleFacts.

(** The comparator is the strict lexicographic order on
    [(time, edge_index, vertex_index)]. *)
Lemma compare_impacts_by_time_spec a b :
  compare_impacts_by_time a b = true ↔
  (ev_time a < ev_time b)%Q ∨
  ((ev_time a == ev_time b)%Q ∧
   (edge_index a < edge_index b ∨
    (edge_index a = edge_index b ∧ vertex_index a < vertex_index b))).
Proof.
  unfold compare_impacts_by_time.
  rewrite orb_true_iff, andb_true_iff, orb_true_iff, andb_true_iff.
  rewrite Qlt_bool_iff, Qeq_bool_iff, !Nat.ltb_lt, Nat.eqb_eq. tauto.
Qed.

Lemma not_after_in_order a b :
  not_after compare_impacts_by_time a b ↔ in_order a b.
Proof.
  unfold not_after, in_order.
  rewrite <- not_true_iff_false, compare_impacts_by_time_spec.
  split.
  - intros Hnot. split.
    + apply Qnot_lt_le. tauto.
    + intros Heq.
      destruct (lt_eq_lt_dec (edge_index a) (edge_index b)) as [[Hlt|Heqe]|Hgt].
      * by left.
      * right. split; [done|].
        destruct (le_lt_dec (vertex_index a) (vertex_index b)); [done|].
        exfalso. apply Hnot. right. split; [by symmetry|]. right. lia.
      * exfalso. apply Hnot. right. split; [by symmetry|]. by left.
  - intros [Hle Htie] [Hlt | (Heq & Hlex)]; [lra|].
    destruct (Htie (Qeq_sym _ _ Heq)) as [?|[? ?]]; lia.
Qed.

#[local] Instance in_order_total : Total in_order.
Proof.
  intros a b. unfold in_order.
  destruct (Qlt_le_dec (ev_time a) (ev_time b)) as [Hlt|Hge].
  { left. split; lra. }
  destruct (Qlt_le_dec (ev_time b) (ev_time a)) as [Hlt|Hle].
  { right. split; lra. }
  destruct (lt_eq_lt_dec (edge_index a) (edge_index b)) as [[?|?]|?].
  - left. split; [done|]. intros _. by left.
  - destruct (le_lt_dec (vertex_index a) (vertex_index b)).
    + left. split; [done|]. intros _. by right.
    + right. split; [done|]. intros _. right. lia.
  - right. split; [done|]. intros _. by left.
Qed.

#[local] Instance in_order_trans : Transitive in_order.
Proof.
  intros a b c [Hab Tab] [Hbc Tbc]. split; [lra|].
  intros Heq.
  assert (Hab' : (ev_time a == ev_time b)%Q) by lra.
  assert (Hbc' : (ev_time b == ev_time c)%Q) by lra.
  destruct (Tab Hab') as [?|[? ?]], (Tbc Hbc') as [?|[? ?]]; lia.
Qed.

#[local] Instance not_after_total : Total (not_after compare_impacts_by_time).
Proof.
  intros a b. rewrite !not_after_in_order. apply in_order_total.
Qed.

#[local] Instance not_after_trans :
  Transitive (not_after compare_impacts_by_time).
Proof.
  intros a b c. rewrite !not_after_in_order. apply in_order_trans.
Qed.

Lemma StronglySorted_weaken {A : Type} (R S : relation A) (l : list A) :
  (∀ a b, R a b → S a b) → StronglySorted R l → StronglySorted S l.
Proof.
  intros HRS. induction 1 as [|x l Hl IH Hx]; constructor; [done|].
  eapply Forall_impl; [exact Hx|]. auto.
Qed.

(** Sorting by the comparator puts the impacts in order and loses none. *)
Lemma std_sort_in_order (impacts : list EdgeVertexImpact) :
  StronglySorted in_order (std_sort compare_impacts_by_time impacts) ∧
  std_sort compare_impacts_by_time impacts ≡ₚ impacts.
Proof.
  split; [|apply merge_sort_Permutation].
  eapply StronglySorted_weaken; [|apply StronglySorted_merge_sort; apply _].
  intros a b. apply not_after_in_order.
Qed.

(** *** Lifting *)

Section Lifting.

Variable alpha_on_edge : EdgeVertexImpact → nat → Q.

(** An edge-edge impact comes from an edge-vertex impact on its first
    edge, and its second edge is an edge of the scene that holds the
    struck vertex. *)
Lemma elem_of_convert edges ev_impacts (imp : EdgeEdgeImpact) :
  imp ∈ convert_edge_vertex_to_edge_edge_impacts alpha_on_edge edges ev_impacts ↔
  ∃ ev v0 v1,
    ev ∈ ev_impacts ∧ edges !! edge_b imp = Some (v0, v1) ∧
    (v0 = vertex_index ev ∨ v1 = vertex_index ev) ∧
    imp = EE (ev_time ev) (edge_index ev) (alpha ev)
             (edge_b imp) (alpha_on_edge ev (edge_b imp)).
Proof.
  unfold convert_edge_vertex_to_edge_edge_impacts, lift_impact.
  rewrite list_elem_of_bind. split.
  - intros (ev & Himp & Hev).
    apply list_elem_of_omap in Himp as ([e' [v0 v1]] & Hin & Hsome).
    apply list_elem_of_lookup in Hin as (i & Hi).
    rewrite list_lookup_imap in Hi.
    destruct (edges !! i) as [[w0 w1]|] eqn:Hlook; simpl in Hi; [|done].
    injection Hi as <- <- <-.
    destruct ((w0 =? vertex_index ev) || (w1 =? vertex_index ev))%nat eqn:Hb;
      [|done].
    injection Hsome as <-. simpl.
    exists ev, w0, w1. repeat split; [done|done|].
    apply orb_true_iff in Hb as [Hb|Hb]; apply Nat.eqb_eq in Hb; auto.
  - intros (ev & v0 & v1 & Hev & Hlook & Hv & Himp).
    exists ev. split; [|done].
    apply list_elem_of_omap. exists (edge_b imp, (v0, v1)). split.
    + apply list_elem_of_lookup. exists (edge_b imp).
      rewrite list_lookup_imap, Hlook. reflexivity.
    + assert (Hb : ((v0 =? vertex_index ev) || (v1 =? vertex_index ev))%nat
                   = true).
      { apply orb_true_iff. destruct Hv as [->| ->]; [left|right];
          apply Nat.eqb_refl. }
      rewrite Hb. by rewrite Himp at 3.
Qed.

End Lifting.

(** *** Pruning *)

Lemma involves_spec e imp :
  involves e imp = true ↔ edge_a imp = e ∨ edge_b imp = e.
Proof. unfold involves. rewrite orb_true_iff, !Nat.eqb_eq. tauto. Qed.

(** The impact kept for an edge is an impact of the list, at the index
    kept with it, and it involves the edge. *)
Lemma earliest_from_Some e :
  ∀ impacts pre best j b,
    (∀ j b, best = Some (j, b) →
            pre !! j = Some b ∧ involves e b = true) →
    earliest_from e (length pre) impacts best = Some (j, b) →
    (pre ++ impacts) !! j = Some b ∧ involves e b = true.
Proof.
  induction impacts as [|imp rest IH]; intros pre best j b Hbest Hrun.
  - simpl in Hrun. rewrite app_nil_r. by apply Hbest.
  - simpl in Hrun.
    replace (S (length pre)) with (length (pre ++ [imp])) in Hrun
      by (rewrite length_app; simpl; lia).
    apply IH in Hrun; [by rewrite <- app_assoc in Hrun|].
    intros j' b' Hbest'.
    assert (Hnew : (pre ++ [imp]) !! length pre = Some imp).
    { by rewrite list_lookup_middle. }
    assert (Hold : ∀ j b, best = Some (j, b) →
                          (pre ++ [imp]) !! j = Some b ∧ involves e b = true).
    { intros j0 b0 H0. destruct (Hbest j0 b0 H0) as [Hl Hi].
      split; [|done]. by apply lookup_app_l_Some. }
    destruct (involves e imp) eqn:Hinv; [|by apply Hold].
    destruct best as [[j0 b0]|].
    + destruct (Qlt_bool (ee_time imp) (ee_time b0)).
      * injection Hbest' as <- <-. done.
      * by apply Hold.
    + injection Hbest' as <- <-. done.
Qed.

(** No impact is kept exactly when no impact of the list involves the
    edge. *)
Lemma earliest_from_None e :
  ∀ impacts i best,
    earliest_from e i impacts best = None ↔
    best = None ∧ Forall (λ imp, involves e imp = false) impacts.
Proof.
  induction impacts as [|imp rest IH]; intros i best; simpl.
  - split; [by intros ->|by intros [-> _]].
  - rewrite IH, Forall_cons.
    destruct (involves e imp) eqn:Hinv.
    + split; [|by intros [_ [? _]]].
      intros [Hnone _]. destruct best as [[j b]|]; [|done].
      by destruct (Qlt_bool _ _).
    + tauto.
Qed.

(** The impact kept is the earliest: no impact that involves the edge is
    strictly earlier. *)
Lemma earliest_from_earliest e :
  ∀ impacts i best j b,
    earliest_from e i impacts best = Some (j, b) →
    (∀ j0 b0, best = Some (j0, b0) → (ee_time b <= ee_time b0)%Q) ∧
    Forall (λ imp, involves e imp = true → (ee_time b <= ee_time imp)%Q)
           impacts.
Proof.
  induction impacts as [|imp rest IH]; intros i best j b Hrun; simpl in Hrun.
  - subst best. split; [|constructor].
    intros j0 b0 Heq. injection Heq as <- <-. lra.
  - apply IH in Hrun as [Hbest Hrest].
    destruct (involves e imp) eqn:Hinv.
    + destruct best as [[j0 b0]|].
      * destruct (Qlt_bool (ee_time imp) (ee_time b0)) eqn:Hlt.
        -- apply Qlt_bool_iff in Hlt.
           pose proof (Hbest _ _ eq_refl) as Hle.
           split; [|constructor; [done|done]].
           intros j1 b1 Heq. injection Heq as <- <-. lra.
        -- apply Qlt_bool_false in Hlt.
           pose proof (Hbest _ _ eq_refl) as Hle.
           split; [done|constructor; [|done]]. intros _. lra.
      * pose proof (Hbest _ _ eq_refl) as Hle.
        split; [done|constructor; [done|done]].
    + split; [done|constructor; [|done]]. congruence.
Qed.

Lemma earliest_impact_spec e impacts :
  (∀ k, earliest_impact e impacts = k → (0 <= k)%Z →
        ∃ imp, impacts !! Z.to_nat k = Some imp ∧
               (edge_a imp = e ∨ edge_b imp = e) ∧
               Forall (λ other, involves e other = true →
                                (ee_time imp <= ee_time other)%Q) impacts) ∧
  (earliest_impact e impacts = (-1)%Z ↔
   ∀ imp, imp ∈ impacts → edge_a imp ≠ e ∧ edge_b imp ≠ e).
Proof.
  unfold earliest_impact.
  destruct (earliest_from e 0 impacts None) as [[j b]|] eqn:Hrun.
  - pose proof (earliest_from_Some e impacts [] None j b) as Hsome.
    destruct Hsome as [Hlook Hinv]; [done|exact Hrun|].
    apply earliest_from_earliest in Hrun as [_ Hmin].
    split.
    + intros k <- _. rewrite Nat2Z.id. exists b.
      split; [done|]. split; [by apply involves_spec|done].
    + split; [lia|]. intros Hno. exfalso.
      destruct (Hno b) as [Ha Hb]; [by eapply list_elem_of_lookup_2|].
      apply involves_spec in Hinv. tauto.
  - apply earliest_from_None in Hrun as [_ Hall].
    split; [intros k <-; lia|]. split; [|done]. intros _ imp Hin.
    rewrite Forall_forall in Hall. specialize (Hall imp Hin).
    split; intros Heq; (assert (involves e imp = true) as Ht
                          by (apply involves_spec; auto)); congruence.
Qed.

Lemma prune_impacts_lookup impacts edge_impact_map e :
  e < length edge_impact_map →
  (prune_impacts impacts edge_impact_map).2 !! e
  = Some (earliest_impact e impacts).
Proof.
  intros He. unfold prune_impacts. simpl. rewrite list_lookup_imap.
  destruct (lookup_lt_is_Some_2 edge_impact_map e He) as [k ->]. done.
Qed.

End ImpactsFacts.

(** ** The scene and its impacts *)

Module StateFacts.

Import Impacts State.

Section Detect.

Variable ccd_detect_edge_vertex_collisions :
  list (Q * Q) → list (Q * Q) → list (nat * nat) →
  list EdgeVertexImpact → DetectionMethod → list EdgeVertexImpact.
Variable alpha_on_edge : EdgeVertexImpact → nat → Q.

Local Abbreviation detect :=
  (detect_edge_vertex_collisions ccd_detect_edge_vertex_collisions
     alpha_on_edge).

Lemma detect_ev_impacts s :
  ev_impacts (detect s)
  = std_sort compare_impacts_by_time
      (ccd_detect_edge_vertex_collisions (vertices s) (displacements s)
         (edges s) (ev_impacts s) (detection_method s)).
Proof. reflexivity. Qed.

Lemma detect_ee_impacts s :
  ee_impacts (detect s)
  = convert_edge_vertex_to_edge_edge_impacts alpha_on_edge (edges s)
      (ev_impacts (detect s)).
Proof. reflexivity. Qed.

Lemma detect_edge_impact_map s :
  edge_impact_map (detect s)
  = (prune_impacts (ee_impacts (detect s)) (edge_impact_map s)).2.
Proof. reflexivity. Qed.

(** C3.  After [State::detect_edge_vertex_collisions], for every edge
    [e]: when the impact map holds an index [k >= 0] for [e], the impact
    at that index names [e] as one of its two edges; and the map holds
    [-1] for [e] exactly when no edge-edge impact of the step involves
    [e]. *)
Theorem edge_impact_map_names_edge (s : State.t) (e : nat) :
  length (edge_impact_map s) = length (edges s) →
  e < length (edges s) →
  (∀ k, edge_impact_map (detect s) !! e = Some k → (0 <= k)%Z →
     ∃ imp, ee_impacts (detect s) !! Z.to_nat k = Some imp ∧
            get_edge_impact e (detect s) = Some imp ∧
            (edge_a imp = e ∨ edge_b imp = e)) ∧
  (edge_impact_map (detect s) !! e = Some (-1)%Z ↔
   ∀ imp, imp ∈ ee_impacts (detect s) → edge_a imp ≠ e ∧ edge_b imp ≠ e).
Proof.
  intros Hlen He.
  assert (Hmap : edge_impact_map (detect s) !! e
                 = Some (earliest_impact e (ee_impacts (detect s)))).
  { rewrite detect_edge_impact_map.
    apply ImpactsFacts.prune_impacts_lookup. lia. }
  destruct (ImpactsFacts.earliest_impact_spec e (ee_impacts (detect s)))
    as [Hsome Hnone].
  unfold get_edge_impact. rewrite Hmap. split.
  - intros k [= <-] Hpos.
    change (0 <= earliest_impact e (ee_impacts (detect s)))%Z in Hpos.
    destruct (Hsome _ eq_refl Hpos) as (imp & Hlook & Hedge & _).
    exists imp. split; [done|]. split; [|done].
    change (Some ?x ≫= ?f) with (f x). cbv beta.
    destruct (_ <? 0)%Z eqn:Hneg; [apply Z.ltb_lt in Hneg; lia|done].
  - rewrite <- Hnone. split; [congruence|by intros ->].
Qed.

(** C4.  After [State::detect_edge_vertex_collisions] the list of
    edge-vertex impacts is in ascending order of time, and impacts of
    equal time are in the lexicographic order of
    [(edge_index, vertex_index)]; it holds the impacts that were
    detected. *)
Theorem ev_impacts_sorted (s : State.t) :
  StronglySorted in_order (ev_impacts (detect s)) ∧
  ev_impacts (detect s)
  ≡ₚ ccd_detect_edge_vertex_collisions (vertices s) (displacements s)
       (edges s) (ev_impacts s) (detection_method s).
Proof.
  rewrite detect_ev_impacts. apply ImpactsFacts.std_sort_in_order.
Qed.

End Detect.

(** In the small scene, edge [0] is the first edge of the impact at time
    [1/2] and the second edge of the one at time [1/4]: the map holds
    the index of the latter. *)
Lemma edge_impact_map_names_edge_witness :
  let s := detect_edge_vertex_collisions two_impacts (λ _ _, 0%Q) two_edges in
  (∀ k, edge_impact_map s !! 0%nat = Some k → (0 <= k)%Z →
     ∃ imp, ee_impacts s !! Z.to_nat k = Some imp ∧
            get_edge_impact 0 s = Some imp ∧
            (edge_a imp = 0%nat ∨ edge_b imp = 0%nat)) ∧
  (edge_impact_map s !! 0%nat = Some (-1)%Z ↔
   ∀ imp, imp ∈ ee_impacts s → edge_a imp ≠ 0%nat ∧ edge_b imp ≠ 0%nat).
Proof.
  apply (edge_impact_map_names_edge two_impacts (λ _ _, 0%Q) two_edges 0).
  - reflexivity.
  - simpl. lia.
Defined.

(** *** Operations on the scene *)

Section Operations.

Variable uninit_row : Q * Q.
Variable uninit_edge : nat * nat.
Variable uninit_index : Z.
Variable uninit_volume : Q.

Lemma reset_impacts_cleared s : cleared_impacts (reset_impacts s).
Proof. by repeat split. Qed.

Lemma reset_scene_cleared s : cleared_impacts (reset_scene s).
Proof. by repeat split. Qed.

Lemma load_scene_cleared scene s s' :
  load_scene scene s = Ok s' → cleared_impacts s'.
Proof.
  unfold load_scene. simpl.
  destruct (negb _); [done|].
  destruct (scene_vertices scene ++ _) as [|first others]; [done|].
  destruct (_ || _).
  - destruct (std_min _ _); try done.
    intros [= <-]. apply reset_scene_cleared.
  - intros [= <-]. apply reset_scene_cleared.
Qed.

(** C9.  Every operation that changes the scene ([add_vertex],
    [add_edges], [set_vertex_position], [move_vertex],
    [move_displacement], loading and resetting the scene) leaves the
    impacts cleared: no edge-vertex and no edge-edge impact, a zero
    volume for each edge, [-1] in the impact map for each edge, and a
    zero gradient with one row per vertex coordinate and one column per
    edge. *)
Theorem scene_operations_clear_impacts (op : operation) (s s' : State.t) :
  apply uninit_row uninit_edge uninit_index uninit_volume op s = Ok s' →
  cleared_impacts s'.
Proof.
  destruct op; simpl.
  - intros [= <-]. apply reset_impacts_cleared.
  - intros [= <-]. apply reset_impacts_cleared.
  - unfold set_vertex_position. destruct (row_in_range _ _); [|done].
    intros [= <-]. apply reset_impacts_cleared.
  - unfold move_vertex. destruct (row_in_range _ _); [|done].
    intros [= <-]. apply reset_impacts_cleared.
  - unfold move_displacement. destruct (row_in_range _ _); [|done].
    intros [= <-]. apply reset_impacts_cleared.
  - apply load_scene_cleared.
  - intros [= <-]. apply reset_scene_cleared.
Qed.

(** The operations on a row that exists succeed. *)
Lemma row_operations_succeed (i : nat) (row : Q * Q) (s : State.t) :
  i < length (vertices s) →
  length (displacements s) = length (vertices s) →
  (∃ s', set_vertex_position (Z.of_nat i) row s = Ok s') ∧
  (∃ s', move_vertex (Z.of_nat i) row s = Ok s') ∧
  (∃ s', move_displacement (Z.of_nat i) row s = Ok s').
Proof.
  intros Hi Hlen.
  assert (Hv : row_in_range (Z.of_nat i) (vertices s) = true).
  { unfold row_in_range. apply andb_true_iff.
    split; [apply Z.leb_le|apply Z.ltb_lt]; lia. }
  assert (Hd : row_in_range (Z.of_nat i) (displacements s) = true).
  { unfold row_in_range. apply andb_true_iff.
    split; [apply Z.leb_le|apply Z.ltb_lt]; lia. }
  unfold set_vertex_position, move_vertex, move_displacement.
  rewrite Hv, Hd. repeat split; eexists; reflexivity.
Qed.

End Operations.

(** *** Loading a scene *)


Lemma load_scene_unfold (scene : Scene) (s : State.t) first others :
  length (scene_vertices scene) = length (scene_displacements scene) →
  all_vertices_of scene = first :: others →
  let s0 := set_displacements (scene_displacements scene)
              (set_edges (scene_edges scene)
                 (set_vertices (scene_vertices scene) s)) in
  let bbox := Eigen.row_sub (Eigen.colwise_maxCoeff first others)
                            (Eigen.colwise_minCoeff first others) in
  let center := Eigen.colwise_mean (all_vertices_of scene) in
  load_scene scene s
  = if Qlt_bool (canvas_width s) bbox.1 || Qlt_bool (canvas_height s) bbox.2
    then
      match std_min (fdiv (canvas_width s * (1 # 2)) bbox.1)
                    (fdiv (canvas_height s * (1 # 2)) bbox.2) with
      | Finite scale =>
          Ok (reset_scene
                (set_displacements
                   (Eigen.row_scale scale <$> scene_displacements scene)
                   (set_vertices
                      ((λ v, Eigen.row_scale scale (Eigen.row_sub v center))
                         <$> scene_vertices scene) s0)))
      | _ => Raise NonFinite
      end
    else Ok (reset_scene s0).
Proof.
  intros Hlen Hall. unfold load_scene. cbn [vertices displacements
    set_vertices set_edges set_displacements].
  rewrite Hlen, Nat.eqb_refl. cbn [negb].
  fold (all_vertices_of scene). rewrite Hall. reflexivity.
Qed.



(** The constructor sets the canvas to 10 by 10, and no operation on the
    scene changes it. *)
Lemma canvas_is_10_by_10 (method : DetectionMethod) :
  canvas_width (init method) = 10%Q ∧ canvas_height (init method) = 10%Q.
Proof. done. Qed.


(** Adding a vertex to the empty scene leaves the impacts cleared. *)
Lemma scene_operations_clear_impacts_witness :
  cleared_impacts (add_vertex (0, 0)%Q (1, 2)%Q (init BRUTE_FORCE)).
Proof.
  apply (scene_operations_clear_impacts (0, 0)%Q (0, 0)%nat 0%Z 0%Q
           (AddVertex (1, 2)%Q) (init BRUTE_FORCE)).
  reflexivity.
Defined.

End StateFacts.

(** ** Serialisation *)

Module IoFacts.

Import Io.

Section RoundTrip.

Context {T : Type} `{JsonScalar T}.

(** Reading a scalar back gives the scalar that was stored. *)
Hypothesis get_of : ∀ x : T, json_get (json_of x) = Ok x.

Lemma get_elements_of (v : list T) : get_elements (json_of <$> v) = Ok v.
Proof.
  induction v as [|x v IH]; [done|].
  cbn. rewrite get_of. cbn. rewrite IH. done.
Qed.

(** Vectors: what is read back is the vector that was written, whatever
    the output argument held. *)
Lemma from_json_to_json_vector (v old : list T) :
  from_json_vector (to_json_vector v) old = Ok v.
Proof. apply get_elements_of. Qed.

Lemma get_rows_of (m : list (list T)) :
  get_rows ((λ row, JArray (json_of <$> row)) <$> m) = Ok m.
Proof.
  induction m as [|row m IH]; [done|].
  cbn. rewrite get_elements_of. cbn. rewrite IH. done.
Qed.

(** Matrices with at least one row: what is read back is the matrix that
    was written, whatever the output argument held. *)
Lemma from_json_to_json_rows (m old : MatrixX T) :
  Eigen.wf m → Eigen.coeffs m ≠ [] →
  from_json (to_json m) old = Ok m.
Proof.
  intros Hwf Hrows. unfold from_json, to_json. simpl.
  rewrite get_rows_of. simpl.
  destruct m as [cols [|first rest]]; [done|]. simpl in *.
  unfold Eigen.wf in Hwf. simpl in Hwf.
  apply Forall_cons in Hwf as [Hfirst Hrest].
  rewrite Hfirst, Nat.eqb_refl. simpl.
  assert (Hall : forallb (λ row, (length row =? cols)%nat) rest = true).
  { apply forallb_forall. intros row Hin. apply Nat.eqb_eq.
    rewrite Forall_forall in Hrest. apply Hrest.
    by apply list_elem_of_In. }
  rewrite Hall. done.
Qed.

(** A matrix without rows is written as the empty array, and reading the
    empty array leaves the output argument as it was. *)
Lemma from_json_to_json_no_row (cols : nat) (old : MatrixX T) :
  from_json (to_json (Eigen.Matrix cols [])) old = Ok old.
Proof. reflexivity. Qed.

End RoundTrip.

Lemma int_get_of (n : Z) : json_get (json_of n) = Ok n.
Proof. reflexivity. Qed.

Lemma double_get_of (x : Q) : json_get (json_of x) = Ok x.
Proof. reflexivity. Qed.

(** C8, at the input where it fails.  The edge matrix without rows is
    written and read back into a matrix that holds the edge [(0, 1)]: the
    matrix still holds that edge afterwards, and so differs from the
    matrix that was written. *)
Theorem from_json_keeps_stale_rows :
  let written : MatrixX Z := Eigen.Matrix 2 [] in
  let old : MatrixX Z := Eigen.Matrix 2 [[0; 1]%Z] in
  from_json (to_json written) old = Ok old ∧ old ≠ written.
Proof. split; [reflexivity|discriminate]. Qed.

End IoFacts.

(** ** The distance-barrier rigid-body problem *)

Module DistanceBarrierRBProblemFacts.

Import DistanceBarrierRBProblem.

(** C6.  For every [sigma], [eval_mp_g sigma] is a vector of length one
    whose entry is plus infinity at 256 bits of precision; [sigma] is not
    used. *)
Theorem eval_mp_g_is_infinity (Multiprecision_default : Multiprecision)
    (sigma : list Q) :
  length (eval_mp_g Multiprecision_default sigma) = 1%nat ∧
  eval_mp_g Multiprecision_default sigma !! 0%nat = Some (MP PlusInf 256) ∧
  eval_mp_g Multiprecision_default sigma = eval_mp_g Multiprecision_default [].
Proof. done. Qed.

Lemma minCoeff_nonneg (others : list Q) :
  ∀ first : Q,
    (0 <= first)%Q → Forall (λ x, (0 <= x)%Q) others →
    (0 <= Eigen.minCoeff first others)%Q.
Proof.
  unfold Eigen.minCoeff.
  induction others as [|y others IH]; intros first Hfirst Hall; [done|].
  apply Forall_cons in Hall as [Hy Hall]. simpl.
  apply IH; [|done]. apply Q.min_glb; done.
Qed.

Section Problem.

Variable RigidBodyProblem : Type.
Variable base_state : RigidBodyProblem → gmap string json.
Variable base_simulation_step : Q → RigidBodyProblem → bool * RigidBodyProblem.
Variable base_take_step : list Q → Q → RigidBodyProblem → bool * RigidBodyProblem.
Variable dofs_t0 : RigidBodyProblem → list Q.
Variable displacements_of : RigidBodyProblem → list Q → MatrixX Q.
Variable debug_compute_distances : RigidBodyProblem → MatrixX Q → list Q.
Variable constraint_min_distance : RigidBodyProblem → Q.

Local Abbreviation problem := (t RigidBodyProblem).
Local Abbreviation state := (state RigidBodyProblem base_state).
Local Abbreviation last_evaluation :=
  (last_evaluation RigidBodyProblem base_simulation_step base_take_step
     dofs_t0 displacements_of debug_compute_distances constraint_min_distance).

(** The state always holds the key, whatever was evaluated. *)
Lemma state_has_min_distance (p : problem) :
  is_Some (state p !! "min_distance").
Proof.
  unfold DistanceBarrierRBProblem.state.
  destruct (Qlt_bool _ _); rewrite lookup_insert_eq; eauto.
Qed.

(** After an evaluation the stored minimum is the one of the distances
    seen, or the sentinel [-1] when there was none. *)
Lemma last_evaluation_min (p : problem) (d : list Q) :
  last_evaluation p d →
  debug_min_distance_ _ p
  = match d with
    | first :: others => Eigen.minCoeff first others
    | [] => (-1)%Q
    end.
Proof.
  intros Heval. destruct Heval as [p sigma time_step | p time_step b0].
  - unfold take_step. simpl.
    destruct (base_take_step _ _ _) as [r b']. reflexivity.
  - unfold simulation_step. subst b0.
    destruct (base_simulation_step _ _) as [hc b']. reflexivity.
Qed.

(** C7.  The JSON object that [state()] produces holds the key
    [min_distance]; after an evaluation whose distances are not
    negative, its value is [null] exactly when there was no distance
    candidate, and otherwise it is the minimum of the distances. *)
Theorem state_min_distance (p : problem) :
  is_Some (state p !! "min_distance") ∧
  ∀ d : list Q,
    last_evaluation p d →
    Forall (λ x, (0 <= x)%Q) d →
    ∃ v, state p !! "min_distance" = Some v ∧
         (v = JNull ↔ d = []) ∧
         (∀ first others, d = first :: others →
            v = JFloat (Eigen.minCoeff first others)).
Proof.
  split; [apply state_has_min_distance|].
  intros d Heval Hpos.
  unfold DistanceBarrierRBProblem.state.
  rewrite (last_evaluation_min p d Heval).
  destruct d as [|first others].
  - exists JNull. split; [apply lookup_insert_eq|]. split; done.
  - apply Forall_cons in Hpos as [Hfirst Hothers].
    pose proof (minCoeff_nonneg others first Hfirst Hothers) as Hmin.
    assert (Hlt : Qlt_bool (Eigen.minCoeff first others) 0 = false)
      by (by apply DoubleFacts.Qlt_bool_false).
    rewrite Hlt. eexists. split; [by rewrite lookup_insert_eq|].
    split; [split; discriminate|]. by intros ? ? [= <- <-].
Qed.

End Problem.

(** A problem whose three candidates are at the distances [3], [1] and
    [2] exports the minimum [1]. *)
Lemma state_min_distance_witness :
  let base_step : list Q → Q → unit → bool * unit := λ _ _ b, (true, b) in
  let p := (take_step unit base_step (λ _ sigma, Eigen.Matrix 3 [sigma])
              (λ _ uk, concat (Eigen.coeffs uk))
              [3; 1; 2]%Q 1%Q (Build unit tt 0%Q)).2 in
  ∃ v, state unit (λ _, ∅) p !! "min_distance" = Some v ∧
       (v = JNull ↔ [3; 1; 2]%Q = []) ∧
       (∀ first others, [3; 1; 2]%Q = first :: others →
          v = JFloat (Eigen.minCoeff first others)).
Proof.
  intros base_step p.
  apply (state_min_distance unit (λ _, ∅) (λ _ b, (false, b)) base_step
           (λ _, []) (λ _ sigma, Eigen.Matrix 3 [sigma])
           (λ _ uk, concat (Eigen.coeffs uk)) (λ _, 0%Q) p).
  - apply (after_take_step unit (λ _ b, (false, b)) base_step (λ _, [])
             (λ _ sigma, Eigen.Matrix 3 [sigma])
             (λ _ uk, concat (Eigen.coeffs uk)) (λ _, 0%Q)
             (Build unit tt 0%Q) [3; 1; 2]%Q 1%Q).
  - repeat constructor; discriminate.
Defined.

End DistanceBarrierRBProblemFacts.

(** ** Operations on the scene, one by one *)

Module SceneFacts.

Import Impacts State StateViews.

Lemma conservativeResize_grow {A : Type} (n : nat) (u : A) (v : list A) :
  Eigen.conservativeResize (length v + n) u v = v ++ replicate n u.
Proof.
  unfold Eigen.conservativeResize.
  rewrite take_ge by lia. f_equal. f_equal. lia.
Qed.

Lemma conservativeResize_length {A : Type} (n : nat) (u : A) (v : list A) :
  length (Eigen.conservativeResize n u v) = n.
Proof.
  unfold Eigen.conservativeResize.
  rewrite length_app, length_take, length_replicate. lia.
Qed.

Lemma setZero2_replicate (v : list (Q * Q)) :
  Eigen.setZero2 v = replicate (length v) (0%Q, 0%Q).
Proof.
  unfold Eigen.setZero2. induction v as [|x v IH]; [done|].
  csimpl. by rewrite IH.
Qed.

Lemma insert_last {A : Type} (v : list A) (u x : A) :
  <[length v := x]> (v ++ [u]) = v ++ [x].
Proof.
  replace (length v) with (length v + 0)%nat by lia.
  by rewrite insert_app_r.
Qed.

(** The rows written one by one after the old ones are the new rows:
    the loop of [add_edges]. *)
Lemma write_rows {A : Type} (u : A) (old new : list A) :
  ∀ pre : list A,
    foldl (λ acc ir, <[(length old + ir.1)%nat := ir.2]> acc)
          (old ++ pre ++ replicate (length new) u)
          (imap (λ i x, ((length pre + i)%nat, x)) new)
    = old ++ pre ++ new.
Proof.
  induction new as [|x new IH]; intros pre.
  - done.
  - rewrite imap_cons. cbn [foldl fst snd length replicate].
    rewrite insert_app_r, Nat.add_0_r, insert_app_r_alt by lia.
    rewrite Nat.sub_diag. cbn [insert list_insert].
    replace (pre ++ x :: replicate (length new) u)
      with ((pre ++ [x]) ++ replicate (length new) u)
      by (by rewrite <- app_assoc).
    rewrite (imap_ext _ (λ i y, ((length (pre ++ [x]) + i)%nat, y))).
    + rewrite IH. by rewrite <- app_assoc.
    + intros i y _. cbn. rewrite length_app. cbn. f_equal. lia.
Qed.

Section Operations.

Variable uninit_row : Q * Q.
Variable uninit_edge : nat * nat.
Variable uninit_index : Z.
Variable uninit_volume : Q.

(** X1.  [add_vertex] appends the position to the vertices, and, in a
    scene that has a displacement for each vertex, appends the
    displacement [(0, -0.1)]; the optimised displacements are zero for
    every vertex, and the edges are kept. *)
Theorem add_vertex_appends (position : Q * Q) (s : State.t) :
  length (displacements s) = length (vertices s) →
  let s' := add_vertex uninit_row position s in
  vertices s' = vertices s ++ [position] ∧
  displacements s' = displacements s ++ [(0, - (1 # 10))%Q] ∧
  opt_displacements s' = replicate (S (length (vertices s))) (0%Q, 0%Q) ∧
  edges s' = edges s.
Proof.
  intros Hlen s'. subst s'. unfold add_vertex.
  cbn [vertices displacements opt_displacements edges
       set_vertices set_displacements set_opt_displacements reset_impacts
       set_volumes set_edge_impact_map set_volume_grad set_ev_impacts
       set_ee_impacts].
  repeat split.
  - rewrite conservativeResize_grow. apply insert_last.
  - rewrite <- Hlen, conservativeResize_grow. apply insert_last.
  - rewrite setZero2_replicate, conservativeResize_length.
    f_equal. lia.
Qed.

(** X2.  [add_edges] appends the new edges, in their order, to the edges
    of the scene, and keeps the vertices and displacements. *)
Theorem add_edges_appends (new_edges : list (nat * nat)) (s : State.t) :
  let s' := add_edges uninit_edge uninit_index uninit_volume new_edges s in
  edges s' = edges s ++ new_edges ∧
  vertices s' = vertices s ∧ displacements s' = displacements s.
Proof.
  unfold add_edges.
  cbn [vertices displacements edges
       set_edges set_volumes set_edge_impact_map reset_impacts
       set_volume_grad set_ev_impacts set_ee_impacts].
  split; [|done].
  rewrite conservativeResize_grow.
  apply (write_rows uninit_edge (edges s) new_edges []).
Qed.

Lemma row_in_range_true {A : Type} (idx : Z) (m : list A) :
  row_in_range idx m = true ↔ (0 <= idx)%Z ∧ Z.to_nat idx < length m.
Proof.
  unfold row_in_range. rewrite andb_true_iff, Z.leb_le, Z.ltb_lt. lia.
Qed.

Lemma row_in_range_false {A : Type} (idx : Z) (m : list A) :
  row_in_range idx m = false ↔ (idx < 0)%Z ∨ (Z.of_nat (length m) <= idx)%Z.
Proof.
  unfold row_in_range. rewrite andb_false_iff, Z.leb_gt, Z.ltb_ge. lia.
Qed.

(** X3.  [set_vertex_position] on a row that does not exist (a negative
    index, or one past the last vertex) fails the range check of Eigen;
    on a row that exists it stores the position in that row and keeps
    all other rows, the displacements and the edges. *)
Theorem set_vertex_position_row (vertex_idx : Z) (position : Q * Q)
    (s : State.t) :
  ((vertex_idx < 0)%Z ∨ (Z.of_nat (length (vertices s)) <= vertex_idx)%Z →
   set_vertex_position vertex_idx position s = Raise AssertionFailed) ∧
  ((0 <= vertex_idx)%Z ∧ (vertex_idx < Z.of_nat (length (vertices s)))%Z →
   ∃ s', set_vertex_position vertex_idx position s = Ok s' ∧
         vertices s' !! Z.to_nat vertex_idx = Some position ∧
         (∀ j, j ≠ Z.to_nat vertex_idx → vertices s' !! j = vertices s !! j) ∧
         length (vertices s') = length (vertices s) ∧
         displacements s' = displacements s ∧ edges s' = edges s).
Proof.
  unfold set_vertex_position. split.
  - intros Hout. apply row_in_range_false in Hout. by rewrite Hout.
  - intros Hin.
    assert (Hr : row_in_range vertex_idx (vertices s) = true)
      by (apply row_in_range_true; lia).
    rewrite Hr. eexists. split; [reflexivity|].
    cbn [vertices displacements edges set_vertices reset_impacts
         set_volumes set_edge_impact_map set_volume_grad set_ev_impacts
         set_ee_impacts].
    repeat split.
    + apply list_lookup_insert_eq. lia.
    + intros j Hj. by apply list_lookup_insert_ne.
    + apply length_insert.
Qed.


End Operations.

(** *** Loading fits the scene to the canvas *)








Lemma load_scene_Ok_inv (scene : Scene) (s s' : State.t) :
  load_scene scene s = Ok s' →
  length (scene_vertices scene) = length (scene_displacements scene) ∧
  ∃ first others, all_vertices_of scene = first :: others.
Proof.
  unfold load_scene.
  cbn [vertices displacements set_vertices set_edges set_displacements].
  destruct (length (scene_vertices scene) =? length (scene_displacements scene))%nat
    eqn:Hlen; [|done].
  apply Nat.eqb_eq in Hlen. cbn [negb].
  fold (all_vertices_of scene).
  destruct (all_vertices_of scene) as [|first others]; [done|]. eauto.
Qed.


(** What [load_scene] sets besides the positions: the edges read, one
    row per vertex in the three matrices, the canvas as it was, and the
    clock and the selection of a fresh scene. *)
Lemma load_scene_frame (scene : Scene) (s s' : State.t) :
  load_scene scene s = Ok s' →
  edges s' = scene_edges scene ∧
  length (vertices s') = length (scene_vertices scene) ∧
  rows_agree s' ∧
  canvas_width s' = canvas_width s ∧ canvas_height s' = canvas_height s ∧
  time s' = 0%Q ∧ opt_time s' = 0%Q ∧ current_edge s' = (-1)%Z.
Proof.
  intros Hload.
  destruct (load_scene_Ok_inv scene s s' Hload) as (Hlen & first & others & Hall).
  rewrite (StateFacts.load_scene_unfold scene s first others Hlen Hall) in Hload.
  cbv zeta in Hload.
  destruct (_ || _).
  - destruct (std_min _ _); try done. injection Hload as <-.
    unfold rows_agree. simpl.
    rewrite !length_fmap, length_replicate. done.
  - injection Hload as <-. unfold rows_agree. simpl.
    rewrite length_replicate. done.
Qed.


(** *** Sequences of operations *)

Section Sequences.

Variable uninit_row : Q * Q.
Variable uninit_edge : nat * nat.
Variable uninit_index : Z.
Variable uninit_volume : Q.

Local Abbreviation apply :=
  (State.apply uninit_row uninit_edge uninit_index uninit_volume).
Local Abbreviation run :=
  (StateViews.run uninit_row uninit_edge uninit_index uninit_volume).

Lemma apply_rows_agree (op : operation) (s s' : State.t) :
  rows_agree s → apply op s = Ok s' → rows_agree s'.
Proof.
  intros [Hu Ho]. destruct op; simpl.
  - intros [= <-]. unfold rows_agree, add_vertex. simpl.
    rewrite !length_insert, !conservativeResize_length.
    unfold Eigen.setZero2. rewrite length_fmap, conservativeResize_length.
    done.
  - intros [= <-]. done.
  - unfold set_vertex_position. destruct (row_in_range _ _); [|done].
    intros [= <-]. unfold rows_agree. simpl. by rewrite length_insert.
  - unfold move_vertex. destruct (row_in_range _ _); [|done].
    intros [= <-]. unfold rows_agree. simpl. by rewrite length_alter.
  - unfold move_displacement. destruct (row_in_range _ _); [|done].
    intros [= <-]. unfold rows_agree. simpl. by rewrite length_alter.
  - intros Hload. by destruct (load_scene_frame _ _ _ Hload) as (_ & _ & ? & _).
  - intros [= <-]. unfold rows_agree. simpl. by rewrite length_replicate.
Qed.

Lemma plus_scaled_rows (a b : list (Q * Q)) (t : Q) :
  length b = length a →
  ∃ g, plus_scaled a b t = Ok g ∧ length g = length a.
Proof.
  intros Hlen. unfold plus_scaled.
  rewrite Hlen, Nat.eqb_refl. eexists. split; [reflexivity|].
  rewrite length_zip_with. lia.
Qed.

(** X7.  Whatever operations on the scene are run, one after the other,
    from the scene of the constructor, the displacements and the
    optimised displacements keep one row per vertex, so that the
    positions at the current time and at the optimisation time can be
    computed, with one row per vertex. *)
Theorem reachable_scene_rows_agree (method : DetectionMethod)
    (ops : list operation) (s : State.t) :
  run ops (init method) = Ok s →
  rows_agree s ∧
  (∃ g, get_vertex_at_time s = Ok g ∧ length g = length (vertices s)) ∧
  (∃ g, get_opt_vertex_at_time s = Ok g ∧ length g = length (vertices s)).
Proof.
  assert (Hrun : ∀ ops s0 s1, rows_agree s0 → run ops s0 = Ok s1 →
                              rows_agree s1).
  { clear. induction ops as [|op ops IH]; intros s0 s1 Hs0; simpl.
    - by intros [= <-].
    - destruct (apply op s0) as [s0'|e] eqn:Hop; [|done].
      cbn. apply IH. by eapply apply_rows_agree. }
  intros Hops.
  assert (Hs : rows_agree s) by (by eapply Hrun; [|exact Hops]).
  split; [exact Hs|]. destruct Hs as [Hu Ho].
  split; by apply plus_scaled_rows.
Qed.

End Sequences.

(** *** The positions at a time *)

Lemma plus_scaled_zero (a b : list (Q * Q)) (t : Q) :
  length b = length a →
  (Forall (λ u, (u.1 * t == 0)%Q ∧ (u.2 * t == 0)%Q) b) →
  ∃ g, plus_scaled a b t = Ok g ∧ same_rows g a.
Proof.
  intros Hlen Hzero. unfold plus_scaled.
  rewrite Hlen, Nat.eqb_refl. eexists. split; [reflexivity|].
  unfold same_rows.
  revert b Hlen Hzero. induction a as [|v a IH]; intros [|u b] Hlen Hzero;
    simpl in Hlen; try discriminate.
  - constructor.
  - apply Forall_cons in Hzero as [[H1 H2] Hzero].
    simpl. constructor; [|apply IH; [lia|done]].
    simpl. split; lra.
Qed.

(** X8.  After [reset_scene], in a scene with one displacement for each
    vertex, the positions at the current time and at the optimisation
    time are the positions of the vertices: both clocks are at zero. *)
Theorem reset_scene_views (s : State.t) :
  length (displacements s) = length (vertices s) →
  (∃ g, get_vertex_at_time (reset_scene s) = Ok g ∧ same_rows g (vertices s)) ∧
  (∃ g, get_opt_vertex_at_time (reset_scene s) = Ok g ∧
        same_rows g (vertices s)).
Proof.
  intros Hlen. unfold get_vertex_at_time, get_opt_vertex_at_time. simpl.
  split; apply plus_scaled_zero.
  - done.
  - apply Forall_forall. intros u _. split; ring.
  - by rewrite length_replicate.
  - apply Forall_forall. intros u _. split; ring.
Qed.

(** *** The gradient of the volume of the current edge *)

Section VolumeGrad.

Variable uninit_row : Q * Q.

Lemma col_lookup (m : MatrixX Q) (c : nat) :
  Eigen.wf m → c < Eigen.cols m →
  ∃ column, col m c = Ok column ∧
            length column = length (Eigen.coeffs m) ∧
            ∀ r row, Eigen.coeffs m !! r = Some row →
                     column !! r = row !! c.
Proof.
  intros Hwf Hc. unfold col.
  assert (Hlt : (c <? Eigen.cols m)%nat = true) by (by apply Nat.ltb_lt).
  rewrite Hlt.
  destruct (mapM (λ row : list Q, row !! c) (Eigen.coeffs m)) as [column|]
    eqn:Hmap.
  - exists column. split; [done|].
    apply mapM_Some in Hmap.
    split; [symmetry; by eapply Forall2_length|].
    intros r row Hrow.
    destruct (Forall2_lookup_l _ _ _ _ _ Hmap Hrow) as (y & Hy & Hcy).
    by rewrite Hy, Hcy.
  - exfalso.
    assert (Hsome : is_Some (mapM (λ row : list Q, row !! c) (Eigen.coeffs m))).
    { apply mapM_is_Some. unfold Eigen.wf in Hwf.
      eapply Forall_impl; [exact Hwf|]. intros row Hrow. simpl in *.
      apply lookup_lt_is_Some. lia. }
    rewrite Hmap in Hsome. by destruct Hsome.
Qed.

(** X9.  For a current edge [e] and a gradient matrix with two rows per
    vertex, [get_volume_grad] has one row per vertex, and the row of
    vertex [v] holds the entries of column [e] at rows [v] and
    [|V| + v]: the derivatives in [x] come first in the column, those in
    [y] after them. *)
Theorem get_volume_grad_layout (s : State.t) (e : nat) :
  Eigen.wf (volume_grad s) →
  length (Eigen.coeffs (volume_grad s)) = (length (vertices s) * 2)%nat →
  current_edge s = Z.of_nat e → e < Eigen.cols (volume_grad s) →
  ∃ g, get_volume_grad uninit_row s = Ok g ∧
       length g = length (vertices s) ∧
       ∀ v rx ry x y,
         v < length (vertices s) →
         Eigen.coeffs (volume_grad s) !! v = Some rx → rx !! e = Some x →
         Eigen.coeffs (volume_grad s) !! (length (vertices s) + v)%nat
           = Some ry →
         ry !! e = Some y →
         g !! v = Some (x, y).
Proof.
  intros Hwf Hrows Hcur He. unfold get_volume_grad.
  assert (Hguard : (current_edge s <? 0)%Z
                   || (Eigen.cols (volume_grad s) =? 0)%nat = false).
  { apply orb_false_iff. split; [apply Z.ltb_ge; lia|apply Nat.eqb_neq; lia]. }
  rewrite Hguard, Hcur, Nat2Z.id.
  destruct (col_lookup (volume_grad s) e Hwf He) as (column & -> & Hlen & Hcol).
  cbn. eexists. split; [reflexivity|].
  unfold resize_to_rows, kDIM. rewrite Hlen, Hrows.
  rewrite Nat.div_mul by lia. rewrite Nat.eqb_refl.
  split.
  - rewrite length_zip_with, length_take, length_drop. lia.
  - intros v rx ry x y Hv Hrx Hx Hry Hy.
    apply lookup_zip_with_Some. exists x, y. split; [done|].
    rewrite lookup_take_lt by lia. rewrite lookup_drop.
    by rewrite (Hcol _ _ Hrx), Hx, (Hcol _ _ Hry), Hy.
Qed.

(** X10.  In a scene whose impacts are cleared, as after every operation
    on the scene, [get_volume_grad] is zero for every vertex, whichever
    edge is the current one. *)
Theorem get_volume_grad_cleared (s : State.t) :
  cleared_impacts s →
  (current_edge s < Z.of_nat (length (edges s)))%Z →
  get_volume_grad uninit_row s
  = Ok (replicate (length (vertices s)) (0%Q, 0%Q)).
Proof.
  intros (_ & _ & _ & _ & Hgrad) Hcur. unfold get_volume_grad.
  rewrite Hgrad. unfold Eigen.Zero, kDIM. cbn [Eigen.cols Eigen.coeffs].
  destruct ((current_edge s <? 0)%Z || (length (edges s) =? 0)%nat) eqn:Hguard;
    [done|].
  apply orb_false_iff in Hguard as [Hpos Hne].
  apply Z.ltb_ge in Hpos. apply Nat.eqb_neq in Hne.
  unfold col. cbn [Eigen.cols Eigen.coeffs].
  assert (Hlt : (Z.to_nat (current_edge s) <? length (edges s))%nat = true)
    by (apply Nat.ltb_lt; lia).
  rewrite Hlt.
  assert (Hmap : ∀ n, mapM (λ row : list Q, row !! Z.to_nat (current_edge s))
                        (replicate n (replicate (length (edges s)) 0%Q))
                      = Some (replicate n 0%Q)).
  { induction n as [|n IH]; [done|].
    cbn. rewrite lookup_replicate_2 by lia. cbn. rewrite IH. done. }
  rewrite Hmap. cbn. f_equal.
  unfold resize_to_rows, kDIM. rewrite length_replicate.
  rewrite Nat.div_mul by lia. rewrite Nat.eqb_refl.
  replace (length (vertices s) * 2)%nat
    with (length (vertices s) + length (vertices s))%nat by lia.
  rewrite take_replicate_add, drop_replicate_add.
  unfold zip. apply zip_with_replicate.
Qed.

End VolumeGrad.

(** *** The properties on small scenes *)

Lemma add_vertex_appends_witness :
  let s' := add_vertex (0, 0)%Q (1, 2)%Q two_edges in
  vertices s' = vertices two_edges ++ [(1, 2)%Q] ∧
  displacements s' = displacements two_edges ++ [(0, - (1 # 10))%Q] ∧
  opt_displacements s' = replicate 5 (0%Q, 0%Q) ∧
  edges s' = edges two_edges.
Proof.
  apply (add_vertex_appends (0, 0)%Q (1, 2)%Q two_edges). reflexivity.
Defined.

Lemma set_vertex_position_row_witness :
  set_vertex_position 7 (1, 2)%Q two_edges = Raise AssertionFailed ∧
  ∃ s', set_vertex_position 1 (5, 5)%Q two_edges = Ok s' ∧
        vertices s' !! 1%nat = Some (5, 5)%Q.
Proof.
  split.
  - apply (set_vertex_position_row 7 (1, 2)%Q two_edges). right.
    vm_compute. discriminate.
  - destruct (proj2 (set_vertex_position_row 1 (5, 5)%Q two_edges))
      as (s' & Hs' & Hrow & _).
    + split; [lia|reflexivity].
    + exists s'. split; [exact Hs'|exact Hrow].
Defined.




Lemma reachable_scene_rows_agree_witness :
  rows_agree two_edges.
Proof.
  apply (reachable_scene_rows_agree (0, 0)%Q (0, 0)%nat 0%Z 0%Q BRUTE_FORCE
           [AddVertex (0, 0)%Q; AddVertex (1, 0)%Q; AddVertex (0, 1)%Q;
            AddVertex (1, 1)%Q; AddEdges [(0, 1); (2, 3)]%nat]
           two_edges).
  reflexivity.
Defined.

Lemma reset_scene_views_witness :
  ∃ g, get_vertex_at_time (reset_scene two_edges) = Ok g ∧
       same_rows g (vertices two_edges).
Proof.
  apply (reset_scene_views two_edges). reflexivity.
Defined.

Lemma get_volume_grad_layout_witness :
  let s := set_current_edge 1%Z
             (set_volume_grad
                (Eigen.Matrix 2 [[1; 2]; [3; 4]; [5; 6]; [7; 8];
                                 [9; 10]; [11; 12]; [13; 14]; [15; 16]]%Q)
                two_edges) in
  ∃ g, get_volume_grad (0, 0)%Q s = Ok g ∧ g !! 1%nat = Some (4, 12)%Q.
Proof.
  intros s.
  destruct (get_volume_grad_layout (0, 0)%Q s 1) as (g & Hg & _ & Hrow).
  - unfold Eigen.wf. simpl. repeat constructor.
  - reflexivity.
  - reflexivity.
  - simpl. lia.
  - exists g. split; [exact Hg|].
    apply (Hrow 1%nat [3; 4]%Q [11; 12]%Q); [simpl; lia|reflexivity..].
Defined.

Lemma get_volume_grad_cleared_witness :
  get_volume_grad (0, 0)%Q (set_current_edge 1%Z two_edges)
  = Ok (replicate 4 (0%Q, 0%Q)).
Proof.
  apply (get_volume_grad_cleared (0, 0)%Q (set_current_edge 1%Z two_edges)).
  - unfold cleared_impacts. vm_compute. repeat split.
  - vm_compute. reflexivity.
Defined.

End SceneFacts.

(** ** More on serialisation *)

Module IoMoreFacts.

Import Io.

(** X11.  A vector of doubles or of integers that is written and read
    back is the vector that was written, the empty vector included,
    whatever the output vector held before. *)
Theorem vector_round_trip :
  (∀ v old : list Q, from_json_vector (to_json_vector v) old = Ok v) ∧
  (∀ v old : list Z, from_json_vector (to_json_vector v) old = Ok v).
Proof.
  split; intros v old.
  - apply IoFacts.from_json_to_json_vector, IoFacts.double_get_of.
  - apply IoFacts.from_json_to_json_vector, IoFacts.int_get_of.
Qed.

(** X12.  A matrix of doubles or of integers with at least one row that
    is written and read back is the matrix that was written, whatever
    the output matrix held before. *)
Theorem matrix_round_trip :
  (∀ m old : MatrixX Q,
     Eigen.wf m → Eigen.coeffs m ≠ [] → from_json (to_json m) old = Ok m) ∧
  (∀ m old : MatrixX Z,
     Eigen.wf m → Eigen.coeffs m ≠ [] → from_json (to_json m) old = Ok m).
Proof.
  split; intros m old.
  - apply IoFacts.from_json_to_json_rows, IoFacts.double_get_of.
  - apply IoFacts.from_json_to_json_rows, IoFacts.int_get_of.
Qed.

Lemma matrix_round_trip_witness :
  from_json (to_json (Eigen.Matrix 2 [[0; 1]; [1; 2]]%Z))
            (Eigen.Matrix 2 [[7; 7]]%Z)
  = Ok (Eigen.Matrix 2 [[0; 1]; [1; 2]]%Z).
Proof.
  apply (proj2 matrix_round_trip).
  - unfold Eigen.wf. simpl. repeat constructor.
  - discriminate.
Defined.

Section Shape.

Context {T : Type} `{JsonScalar T}.

(** X13.  What [from_json] leaves in the output matrix is either what
    the matrix held before (the JSON array is empty), or a matrix with at
    least one row, all rows as long as the first, that does not depend
    on what the output matrix held; rows of different lengths are never
    stored. *)
Theorem from_json_result (j : json) (old m : MatrixX T) :
  from_json j old = Ok m →
  m = old ∨
  (Eigen.coeffs m ≠ [] ∧ Eigen.wf m ∧ ∀ old', from_json j old' = Ok m).
Proof.
  unfold from_json.
  destruct (get_vector_of_vectors j) as [list|e]; [|done]. cbn.
  destruct list as [|first rest]; [intros [= <-]; by left|].
  destruct (forallb _ _) eqn:Hall; [|done].
  intros [= <-]. right. split; [done|]. split; [|done].
  unfold Eigen.wf. cbn [Eigen.coeffs Eigen.cols].
  apply Forall_forall. intros row Hin.
  rewrite forallb_forall in Hall.
  apply Nat.eqb_eq, Hall. by apply list_elem_of_In.
Qed.

End Shape.

(** The JSON array of the rows [(0, 1)] and [(2)] is refused. *)
Lemma from_json_result_witness :
  Eigen.Matrix 2 [[0; 1]%Z] = Eigen.Matrix 2 [[5; 5]%Z] ∨
  (Eigen.coeffs (Eigen.Matrix 2 [[0; 1]%Z]) ≠ [] ∧
   Eigen.wf (Eigen.Matrix 2 [[0; 1]%Z]) ∧
   ∀ old', from_json (JArray [JArray [JInt 0; JInt 1]]) old'
           = Ok (Eigen.Matrix 2 [[0; 1]%Z])).
Proof.
  apply (from_json_result (JArray [JArray [JInt 0; JInt 1]])
           (Eigen.Matrix 2 [[5; 5]%Z])).
  reflexivity.
Defined.

End IoMoreFacts.

(** ** More on the distance-barrier problem *)

Module ProblemStepFacts.

Import DistanceBarrierRBProblem.

Lemma Qmin_cases (x y : Q) : Qmin x y = x ∨ Qmin x y = y.
Proof.
  unfold Qmin, GenericMinMax.gmin. destruct (x ?= y)%Q; auto.
Qed.

(** The minimum is one of the entries and is below all of them. *)
Lemma minCoeff_attained (others : list Q) :
  ∀ first, Eigen.minCoeff first others ∈ first :: others.
Proof.
  unfold Eigen.minCoeff.
  induction others as [|y others IH]; intros first; simpl.
  - apply list_elem_of_here.
  - specialize (IH (Qmin first y)).
    apply elem_of_cons in IH as [IH|IH].
    + rewrite IH. destruct (Qmin_cases first y) as [-> | ->].
      * apply list_elem_of_here.
      * apply list_elem_of_further, list_elem_of_here.
    + by do 2 apply list_elem_of_further.
Qed.

Lemma minCoeff_lower (others : list Q) :
  ∀ first,
    (Eigen.minCoeff first others <= first)%Q ∧
    Forall (λ x, (Eigen.minCoeff first others <= x)%Q) others.
Proof.
  unfold Eigen.minCoeff.
  induction others as [|y others IH]; intros first; simpl.
  - split; [lra|constructor].
  - destruct (IH (Qmin first y)) as [Hm Hall].
    pose proof (Q.le_min_l first y). pose proof (Q.le_min_r first y).
    split; [lra|]. constructor; [lra|done].
Qed.

Section Problem.

Variable RigidBodyProblem : Type.
Variable base_simulation_step : Q → RigidBodyProblem → bool * RigidBodyProblem.
Variable base_take_step : list Q → Q → RigidBodyProblem → bool * RigidBodyProblem.
Variable dofs_t0 : RigidBodyProblem → list Q.
Variable displacements_of : RigidBodyProblem → list Q → MatrixX Q.
Variable debug_compute_distances : RigidBodyProblem → MatrixX Q → list Q.
Variable constraint_min_distance : RigidBodyProblem → Q.

Local Abbreviation problem := (t RigidBodyProblem).
Local Abbreviation simulation_step :=
  (simulation_step RigidBodyProblem base_simulation_step dofs_t0
     displacements_of debug_compute_distances constraint_min_distance).
Local Abbreviation take_step :=
  (take_step RigidBodyProblem base_take_step displacements_of
     debug_compute_distances).
Local Abbreviation distances :=
  (distances RigidBodyProblem displacements_of debug_compute_distances).
Local Abbreviation last_evaluation :=
  (last_evaluation RigidBodyProblem base_simulation_step base_take_step
     dofs_t0 displacements_of debug_compute_distances constraint_min_distance).

(** X14.  [simulation_step] reports a collision exactly when the step of
    the base class reports one or some candidate of the poses at the
    start of the step is at a distance not above the minimal distance of
    the constraint, the distances being not negative. *)
Theorem simulation_step_collision (time_step : Q) (p : problem) :
  let b := (base_simulation_step time_step (base _ p)).2 in
  let d := distances (Build _ b (debug_min_distance_ _ p)) (dofs_t0 b) in
  Forall (λ x, (0 <= x)%Q) d →
  ((simulation_step time_step p).1 = true ↔
   (base_simulation_step time_step (base _ p)).1 = true ∨
   ∃ x, x ∈ d ∧ (x <= constraint_min_distance b)%Q).
Proof.
  intros b d Hpos. subst b d.
  unfold DistanceBarrierRBProblem.simulation_step.
  destruct (base_simulation_step time_step (base _ p)) as [hb b] eqn:Hbase.
  cbn [fst snd base debug_min_distance_] in *.
  unfold debug_min_distance.
  set (d := DistanceBarrierRBProblem.distances _ _ _ _ _) in *.
  destruct d as [|first others].
  - cbn. split; [auto|]. intros [?|(x & Hx & _)]; [done|].
    by apply elem_of_nil in Hx.
  - apply Forall_cons in Hpos as [Hfirst Hothers].
    pose proof (DistanceBarrierRBProblemFacts.minCoeff_nonneg
                  others first Hfirst Hothers) as Hmin.
    apply Qle_bool_iff in Hmin. rewrite Hmin.
    destruct (minCoeff_lower others first) as [Hlf Hlo].
    destruct (Qle_bool (Eigen.minCoeff first others)
                       (constraint_min_distance b)) eqn:Hle.
    + split; [intros _|done]. right.
      exists (Eigen.minCoeff first others).
      split; [apply minCoeff_attained|by apply Qle_bool_iff].
    + split; [auto|]. intros [?|(x & Hx & Hxle)]; [done|]. exfalso.
      assert (Hmx : (Eigen.minCoeff first others <= x)%Q).
      { apply elem_of_cons in Hx as [->|Hx]; [done|].
        rewrite Forall_forall in Hlo. by apply Hlo. }
      assert (Htrue : Qle_bool (Eigen.minCoeff first others)
                               (constraint_min_distance b) = true)
        by (apply Qle_bool_iff; lra).
      congruence.
Qed.

(** X15.  After an evaluation that has seen at least one candidate, the
    minimum distance that the problem records is the distance of one of
    the candidates, and no candidate is closer. *)
Theorem recorded_minimum (p : problem) (d : list Q) :
  last_evaluation p d → d ≠ [] →
  debug_min_distance_ _ p ∈ d ∧
  Forall (λ x, (debug_min_distance_ _ p <= x)%Q) d.
Proof.
  intros Heval Hne.
  rewrite (DistanceBarrierRBProblemFacts.last_evaluation_min _ _ _ _ _ _ _
             p d Heval).
  destruct d as [|first others]; [done|].
  split; [apply minCoeff_attained|].
  destruct (minCoeff_lower others first) as [Hf Ho]. by constructor.
Qed.

End Problem.

(** A problem whose candidates are at the distances [3], [1] and [2],
    with the minimal distance [3/2]. *)
Lemma simulation_step_collision_witness :
  (simulation_step unit (λ _ b, (false, b)) (λ _, [3; 1; 2]%Q)
     (λ _ sigma, Eigen.Matrix 3 [sigma]) (λ _ uk, concat (Eigen.coeffs uk))
     (λ _, 3 # 2) 1%Q (Build unit tt 0%Q)).1 = true.
Proof.
  apply (simulation_step_collision unit (λ _ b, (false, b)) (λ _, [3; 1; 2]%Q)
           (λ _ sigma, Eigen.Matrix 3 [sigma])
           (λ _ uk, concat (Eigen.coeffs uk)) (λ _, 3 # 2) 1%Q
           (Build unit tt 0%Q)).
  - repeat constructor; discriminate.
  - right. exists 1%Q. split; [|discriminate].
    apply list_elem_of_further, list_elem_of_here.
Defined.

Lemma recorded_minimum_witness :
  let base_step : list Q → Q → unit → bool * unit := λ _ _ b, (true, b) in
  let p := (take_step unit base_step (λ _ sigma, Eigen.Matrix 3 [sigma])
              (λ _ uk, concat (Eigen.coeffs uk))
              [3; 1; 2]%Q 1%Q (Build unit tt 0%Q)).2 in
  debug_min_distance_ unit p ∈ [3; 1; 2]%Q ∧
  Forall (λ x, (debug_min_distance_ unit p <= x)%Q) [3; 1; 2]%Q.
Proof.
  intros base_step p.
  apply (recorded_minimum unit (λ _ b, (false, b)) base_step (λ _, [])
           (λ _ sigma, Eigen.Matrix 3 [sigma])
           (λ _ uk, concat (Eigen.coeffs uk)) (λ _, 0%Q) p).
  - apply (after_take_step unit (λ _ b, (false, b)) base_step (λ _, [])
             (λ _ sigma, Eigen.Matrix 3 [sigma])
             (λ _ uk, concat (Eigen.coeffs uk)) (λ _, 0%Q)
             (Build unit tt 0%Q) [3; 1; 2]%Q 1%Q).
  - discriminate.
Defined.

End ProblemStepFacts.

(** ** Jacobian and Hessians of the barrier constraints *)

Module BarrierDerivativesFacts.

Import BarrierDerivatives.

Lemma for_each_lookup {A B : Type} (f : A → result B) (l : list A) :
  ∀ ys, for_each f l = Ok ys →
        length ys = length l ∧
        ∀ i x y, l !! i = Some x → ys !! i = Some y → f x = Ok y.
Proof.
  induction l as [|x l IH]; intros ys; cbn.
  - intros [= <-]. split; [done|]. intros i x y Hx. done.
  - destruct (f x) as [y|e] eqn:Hfx; [|done]. cbn.
    destruct (for_each f l) as [ys'|e]; [|done]. cbn.
    intros [= <-]. destruct (IH ys' eq_refl) as [Hlen Hall].
    split; [simpl; lia|].
    intros [|i] x0 y0; simpl.
    + by intros [= <-] [= <-].
    + apply Hall.
Qed.

Lemma head_Ok n v part :
  head n v = Ok part → n ≤ length v ∧ part = take n v.
Proof.
  unfold head. destruct (n <=? length v)%nat eqn:Hn; [|done].
  apply Nat.leb_le in Hn. by intros [= <-].
Qed.

Lemma tail_Ok n v part :
  tail n v = Ok part → n ≤ length v ∧ part = drop (length v - n) v.
Proof.
  unfold tail. destruct (n <=? length v)%nat eqn:Hn; [|done].
  apply Nat.leb_le in Hn. by intros [= <-].
Qed.

Lemma write_block_Ok row start values row' :
  write_block row start values = Ok row' →
  (0 <= start)%Z ∧ Z.to_nat start + length values ≤ length row ∧
  row' = list_inserts (Z.to_nat start) values row.
Proof.
  unfold write_block. destruct (_ && _) eqn:Hin; [|done].
  apply andb_true_iff in Hin as [H0 H1].
  apply Z.leb_le in H0, H1. intros [= <-]. repeat split; [done|lia].
Qed.

Section Core.

Variable dim : Z.
Variable num_vars_ : nat.
Variable dim_to_ndof : Z → nat.
Variable m_edges : Z → nat → Z.
Variable global_to_local : Z → Z * Z.
Variable barrier_gradient : list Q → RB2Candidate → list Q.
Variable barrier_hessian : list Q → RB2Candidate → nat → nat → Q.

Local Abbreviation extract_local_system :=
  (extract_local_system dim m_edges global_to_local).
Local Abbreviation jac_g_row :=
  (jac_g_row dim num_vars_ dim_to_ndof m_edges global_to_local
     barrier_gradient).
Local Abbreviation eval_jac_g_core :=
  (eval_jac_g_core dim num_vars_ dim_to_ndof m_edges global_to_local
     barrier_gradient).
Local Abbreviation global_el_hessian :=
  (global_el_hessian dim num_vars_ m_edges global_to_local barrier_hessian).
Local Abbreviation eval_hessian_g_core :=
  (eval_hessian_g_core dim num_vars_ m_edges global_to_local barrier_hessian).

(** The row of a candidate: the edge part of the gradient in the block
    of the body of the edge, the vertex part in what is left of the block
    of the body of the vertex, zero elsewhere. *)
Lemma jac_g_row_entries sigma ev row :
  jac_g_row sigma ev = Ok row →
  ∃ rbc,
    extract_local_system ev = Ok rbc ∧
    length row = num_vars_ ∧
    let g := barrier_gradient sigma rbc in
    let ndof := dim_to_ndof dim in
    let cV := Z.to_nat (Z.of_nat ndof * vertex_body_id rbc) in
    let cE := Z.to_nat (Z.of_nat ndof * edge_body_id rbc) in
    ndof ≤ length g ∧ cV + ndof ≤ num_vars_ ∧ cE + ndof ≤ num_vars_ ∧
    ∀ j, j < num_vars_ →
      row !! j =
        if decide (cE ≤ j < cE + ndof)
        then g !! (length g - ndof + (j - cE))%nat
        else if decide (cV ≤ j < cV + ndof)
             then g !! (j - cV)%nat
             else Some 0%Q.
Proof.
  unfold BarrierDerivatives.jac_g_row.
  destruct (extract_local_system ev) as [rbc|e]; [|done]. cbn.
  set (g := barrier_gradient sigma rbc).
  set (ndof := dim_to_ndof dim).
  destruct (head ndof g) as [vertex_part|e] eqn:Hhead; [|done]. cbn.
  destruct (write_block (replicate num_vars_ 0%Q) _ vertex_part)
    as [row0|e] eqn:Hw0; [|done]. cbn.
  destruct (tail ndof g) as [edge_part|e] eqn:Htail; [|done]. cbn.
  intros Hw1. exists rbc. split; [done|].
  apply head_Ok in Hhead as [Hn ->].
  apply tail_Ok in Htail as [_ ->].
  apply write_block_Ok in Hw0 as (HV0 & HVr & ->).
  apply write_block_Ok in Hw1 as (HE0 & HEr & ->).
  rewrite length_take in HVr. rewrite length_drop in HEr.
  rewrite length_inserts, length_replicate in HEr.
  rewrite length_replicate in HVr.
  split; [by rewrite !length_inserts, length_replicate|].
  cbv zeta.
  set (cV := Z.to_nat (Z.of_nat ndof * vertex_body_id rbc)) in *.
  set (cE := Z.to_nat (Z.of_nat ndof * edge_body_id rbc)) in *.
  split; [done|]. split; [lia|]. split; [lia|].
  intros j Hj.
  destruct (decide (cE ≤ j < cE + ndof)) as [HinE|HoutE].
  - rewrite list_lookup_inserts.
    + rewrite lookup_drop. done.
    + rewrite length_drop. lia.
    + rewrite length_inserts, length_replicate. lia.
  - assert (Hsame : list_inserts cE (drop (length g - ndof) g)
                      (list_inserts cV (take ndof g) (replicate num_vars_ 0%Q))
                    !! j
                    = list_inserts cV (take ndof g) (replicate num_vars_ 0%Q)
                      !! j).
    { destruct (decide (j < cE)).
      - by apply list_lookup_inserts_lt.
      - apply list_lookup_inserts_ge. rewrite length_drop. lia. }
    rewrite Hsame.
    destruct (decide (cV ≤ j < cV + ndof)) as [HinV|HoutV].
    + rewrite list_lookup_inserts.
      * apply lookup_take_lt. lia.
      * rewrite length_take. lia.
      * rewrite length_replicate. lia.
    + assert (Hzero : list_inserts cV (take ndof g) (replicate num_vars_ 0%Q)
                        !! j = replicate num_vars_ 0%Q !! j).
      { destruct (decide (j < cV)).
        - by apply list_lookup_inserts_lt.
        - apply list_lookup_inserts_ge. rewrite length_take. lia. }
      rewrite Hzero. by apply lookup_replicate_2.
Qed.

(** X16.  [eval_jac_g_core] raises [NotImplementedError] in 3D.  In 2D
    its result has one row per candidate and one column per variable;
    the row of a candidate holds the last [ndof] entries of its gradient
    in the columns of the body of the edge, the first [ndof] entries in
    the columns of the body of the vertex that the edge part has not
    overwritten, and zero in all other columns. *)
Theorem eval_jac_g_core_scatter (sigma : list Q)
    (candidates : list EdgeVertexCandidate) :
  (dim ≠ 2%Z →
   eval_jac_g_core sigma candidates
   = Raise (NotImplementedError
       "DistanceBarrierRBProblem::eval_jac_g_core() has not been implmented for 3D!")) ∧
  (∀ jac,
     eval_jac_g_core sigma candidates = Ok jac →
     Eigen.cols jac = num_vars_ ∧
     length (Eigen.coeffs jac) = length candidates ∧
     ∀ i ev row,
       candidates !! i = Some ev → Eigen.coeffs jac !! i = Some row →
       ∃ rbc,
         extract_local_system ev = Ok rbc ∧
         length row = num_vars_ ∧
         let g := barrier_gradient sigma rbc in
         let ndof := dim_to_ndof dim in
         let cV := Z.to_nat (Z.of_nat ndof * vertex_body_id rbc) in
         let cE := Z.to_nat (Z.of_nat ndof * edge_body_id rbc) in
         ndof ≤ length g ∧ cV + ndof ≤ num_vars_ ∧ cE + ndof ≤ num_vars_ ∧
         ∀ j, j < num_vars_ →
           row !! j =
             if decide (cE ≤ j < cE + ndof)
             then g !! (length g - ndof + (j - cE))%nat
             else if decide (cV ≤ j < cV + ndof)
                  then g !! (j - cV)%nat
                  else Some 0%Q).
Proof.
  unfold BarrierDerivatives.eval_jac_g_core. split.
  - intros Hdim. apply Z.eqb_neq in Hdim. by rewrite Hdim.
  - intros jac. destruct (negb (dim =? 2)%Z); [done|].
    destruct (for_each (jac_g_row sigma) candidates) as [rows|e] eqn:Hrows;
      [|done].
    cbn. intros [= <-]. cbn [Eigen.cols Eigen.coeffs].
    destruct (for_each_lookup _ _ _ Hrows) as [Hlen Hall].
    split; [done|]. split; [done|].
    intros i ev row Hev Hrow.
    by apply jac_g_row_entries, (Hall i).
Qed.

(** *** The Hessians *)

Lemma add_triplets_other (triplets : list (Z * Z * Q)) :
  ∀ (m : gmap (Z * Z) Q) k,
    k ∉ fst <$> triplets →
    foldl add_triplet m triplets !! k = m !! k.
Proof.
  induction triplets as [|[k' v'] triplets IH]; intros m k Hk; [done|].
  csimpl in Hk. apply not_elem_of_cons in Hk as [Hne Hk].
  simpl. rewrite IH by done.
  unfold add_triplet. simpl. by rewrite lookup_partial_alter_ne.
Qed.

Lemma add_triplets_once (triplets : list (Z * Z * Q)) :
  ∀ (m : gmap (Z * Z) Q) k v,
    NoDup (fst <$> triplets) →
    (k, v) ∈ triplets → m !! k = None →
    foldl add_triplet m triplets !! k = Some v.
Proof.
  induction triplets as [|[k' v'] triplets IH]; intros m k v Hnd Hin Hm.
  - by apply elem_of_nil in Hin.
  - csimpl in Hnd. apply NoDup_cons in Hnd as [Hfresh Hnd].
    apply elem_of_cons in Hin as [[= -> ->]|Hin]; simpl.
    + rewrite add_triplets_other by done.
      unfold add_triplet. simpl. by rewrite lookup_partial_alter_eq, Hm.
    + assert (Hne : k' ≠ k).
      { intros ->. apply Hfresh. apply list_elem_of_fmap.
        by exists (k, v). }
      apply IH; [done|done|].
      unfold add_triplet. simpl. by rewrite lookup_partial_alter_ne.
Qed.

Lemma setFromTriplets_Ok rows cols triplets H :
  setFromTriplets rows cols triplets = Ok H →
  H = Sparse rows cols (foldl add_triplet ∅ triplets).
Proof.
  unfold setFromTriplets. destruct (forallb _ _); [|done]. by intros [= <-].
Qed.

Lemma local_indices_bounds :
  Forall (λ q : nat * nat * nat * nat,
            q.1.1.1 < 2 ∧ q.1.1.2 < 2 ∧ q.1.2 < 3 ∧ q.2 < 3)
         local_indices.
Proof. repeat constructor. Qed.

Lemma local_indices_all b_i b_j dim_i dim_j :
  b_i < 2 → b_j < 2 → dim_i < 3 → dim_j < 3 →
  (b_i, b_j, dim_i, dim_j) ∈ local_indices.
Proof.
  intros Hbi Hbj Hdi Hdj.
  assert (Hb : ∀ b, b < 2 → b = 0%nat ∨ b = 1%nat) by lia.
  assert (Hd : ∀ d, d < 3 → d = 0%nat ∨ d = 1%nat ∨ d = 2%nat) by lia.
  destruct (Hb _ Hbi) as [-> | ->], (Hb _ Hbj) as [-> | ->],
    (Hd _ Hdi) as [-> | [-> | ->]], (Hd _ Hdj) as [-> | [-> | ->]];
    apply list_elem_of_In; vm_compute; tauto.
Qed.

Lemma local_indices_NoDup : NoDup local_indices.
Proof. apply NoDup_ListNoDup. vm_compute. repeat constructor; simpl; intuition congruence. Qed.

(** With two different bodies, the triplets of a candidate are at 36
    different places. *)
Lemma hessian_triplets_NoDup hessian rbc :
  vertex_body_id rbc ≠ edge_body_id rbc →
  NoDup (fst <$> (hessian_triplet hessian rbc <$> local_indices)).
Proof.
  intros Hbodies. rewrite <- list_fmap_compose.
  apply NoDup_fmap_2_strong; [|apply local_indices_NoDup].
  intros [[[bi bj] di] dj] [[[bi' bj'] di'] dj'] Hq Hq' Heq.
  pose proof local_indices_bounds as Hb. rewrite Forall_forall in Hb.
  pose proof (Hb _ Hq) as (H1 & H2 & H3 & H4).
  pose proof (Hb _ Hq') as (H1' & H2' & H3' & H4').
  simpl in *. injection Heq as Hr Hc.
  assert (Hbody : ∀ b b', b < 2 → b' < 2 → ∀ d d', d < 3 → d' < 3 →
            (3 * bodies rbc b + Z.of_nat d = 3 * bodies rbc b' + Z.of_nat d')%Z →
            b = b' ∧ d = d').
  { intros b b' Hlt Hlt' d d' Hd Hd' Hsum.
    assert (bodies rbc b = bodies rbc b' ∧ d = d') as [Hbb ->] by lia.
    split; [|done].
    destruct b as [|[|?]], b' as [|[|?]]; simpl in Hbb; try lia; congruence. }
  destruct (Hbody _ _ H1 H1' _ _ H3 H3' Hr) as [-> ->].
  destruct (Hbody _ _ H2 H2' _ _ H4 H4' Hc) as [-> ->].
  done.
Qed.

(** X17.  [eval_hessian_g_core] raises [NotImplementedError] in 3D.  In
    2D it gives one square matrix per candidate, with one row per
    variable; for a candidate between two different bodies the matrix
    stores the entry [(3 b_i + dim_i, 3 b_j + dim_j)] of the local
    Hessian at row [3 bodies[b_i] + dim_i] and column
    [3 bodies[b_j] + dim_j], and stores nothing anywhere else. *)
Theorem eval_hessian_g_core_scatter (sigma : list Q)
    (candidates : list EdgeVertexCandidate) :
  (dim ≠ 2%Z →
   eval_hessian_g_core sigma candidates
   = Raise (NotImplementedError
       "DistanceBarrierRBProblem::eval_hessian_g_core() has not been implmented for 3D!")) ∧
  (∀ gx_hessian,
     eval_hessian_g_core sigma candidates = Ok gx_hessian →
     length gx_hessian = length candidates ∧
     ∀ i ev H,
       candidates !! i = Some ev → gx_hessian !! i = Some H →
       sp_rows H = num_vars_ ∧ sp_cols H = num_vars_ ∧
       ∃ rbc,
         extract_local_system ev = Ok rbc ∧
         (vertex_body_id rbc ≠ edge_body_id rbc →
          (∀ b_i b_j dim_i dim_j,
             b_i < 2 → b_j < 2 → dim_i < 3 → dim_j < 3 →
             sp_entries H !! ((3 * bodies rbc b_i + Z.of_nat dim_i)%Z,
                              (3 * bodies rbc b_j + Z.of_nat dim_j)%Z)
             = Some (barrier_hessian sigma rbc (3 * b_i + dim_i)%nat
                                               (3 * b_j + dim_j)%nat)) ∧
          (∀ k, is_Some (sp_entries H !! k) →
                ∃ b_i b_j dim_i dim_j,
                  b_i < 2 ∧ b_j < 2 ∧ dim_i < 3 ∧ dim_j < 3 ∧
                  k = ((3 * bodies rbc b_i + Z.of_nat dim_i)%Z,
                       (3 * bodies rbc b_j + Z.of_nat dim_j)%Z)))).
Proof.
  unfold BarrierDerivatives.eval_hessian_g_core. split.
  - intros Hdim. apply Z.eqb_neq in Hdim. by rewrite Hdim.
  - intros gx_hessian. destruct (negb (dim =? 2)%Z); [done|].
    intros Hall. destruct (for_each_lookup _ _ _ Hall) as [Hlen Hrows].
    split; [done|]. intros i ev H Hev HH.
    specialize (Hrows i ev H Hev HH).
    unfold BarrierDerivatives.global_el_hessian in Hrows.
    destruct (extract_local_system ev) as [rbc|e]; [|done].
    change (setFromTriplets num_vars_ num_vars_
              (hessian_triplet (barrier_hessian sigma rbc) rbc
                 <$> local_indices) = Ok H) in Hrows.
    apply setFromTriplets_Ok in Hrows as ->.
    cbn [sp_rows sp_cols sp_entries].
    split; [done|]. split; [done|]. exists rbc. split; [done|].
    intros Hbodies.
    pose proof (hessian_triplets_NoDup (barrier_hessian sigma rbc) rbc Hbodies)
      as Hnd.
    split.
    + intros b_i b_j dim_i dim_j Hbi Hbj Hdi Hdj.
      apply add_triplets_once; [done| |apply lookup_empty].
      apply list_elem_of_fmap. exists (b_i, b_j, dim_i, dim_j).
      split; [done|]. by apply local_indices_all.
    + intros k Hk.
      destruct (decide (k ∈ fst <$> (hessian_triplet (barrier_hessian sigma rbc)
                                       rbc <$> local_indices))) as [Hin|Hout].
      * apply list_elem_of_fmap in Hin as ([k' v] & -> & Hin).
        apply list_elem_of_fmap in Hin as ([[[bi bj] di] dj] & Heq & Hq).
        pose proof local_indices_bounds as Hb. rewrite Forall_forall in Hb.
        pose proof (Hb _ Hq) as (H1 & H2 & H3 & H4).
        cbn [fst snd] in H1, H2, H3, H4 |- *.
        unfold hessian_triplet in Heq. injection Heq as -> _.
        exists bi, bj, di, dj. done.
      * rewrite add_triplets_other, lookup_empty in Hk by done.
        by destruct Hk.
Qed.

End Core.

(** One candidate: the edge of body [0] (global vertices [0] and [1])
    and the vertex [2] of body [1]; the gradient [1 .. 6] is stored as
    [4 5 6 1 2 3] in 2D, and the evaluation is refused in 3D. *)
Lemma eval_jac_g_core_scatter_witness :
  eval_jac_g_core 3 6 (λ _, 3%nat) (λ _ k, Z.of_nat k)
    (λ id, (id / 2, id mod 2)%Z) (λ _ _, [1; 2; 3; 4; 5; 6]%Q) []
    [EVCandidate 0 2]
  = Raise (NotImplementedError
      "DistanceBarrierRBProblem::eval_jac_g_core() has not been implmented for 3D!") ∧
  ∃ rbc,
    extract_local_system 2 (λ _ k, Z.of_nat k) (λ id, (id / 2, id mod 2)%Z)
      (EVCandidate 0 2) = Ok rbc ∧
    length [4; 5; 6; 1; 2; 3]%Q = 6%nat.
Proof.
  split.
  - apply (eval_jac_g_core_scatter 3 6 (λ _, 3%nat) (λ _ k, Z.of_nat k)
             (λ id, (id / 2, id mod 2)%Z)
             (λ _ _, [1; 2; 3; 4; 5; 6]%Q) [] [EVCandidate 0 2]).
    lia.
  - destruct (proj2 (eval_jac_g_core_scatter 2 6 (λ _, 3%nat)
                       (λ _ k, Z.of_nat k) (λ id, (id / 2, id mod 2)%Z)
                       (λ _ _, [1; 2; 3; 4; 5; 6]%Q) [] [EVCandidate 0 2])
                (Eigen.Matrix 6 [[4; 5; 6; 1; 2; 3]%Q])
                ltac:(vm_compute; reflexivity))
      as (_ & _ & Hrows).
    destruct (Hrows 0%nat (EVCandidate 0 2) [4; 5; 6; 1; 2; 3]%Q
                eq_refl eq_refl) as (rbc & Hrbc & Hlen & _).
    exists rbc. split; [exact Hrbc|exact Hlen].
Defined.

Lemma eval_hessian_g_core_scatter_witness :
  eval_hessian_g_core 3 6 (λ _ k, Z.of_nat k) (λ id, (id / 2, id mod 2)%Z)
    (λ _ _ r c, inject_Z (Z.of_nat (6 * r + c))) [] [EVCandidate 0 2]
  = Raise (NotImplementedError
      "DistanceBarrierRBProblem::eval_hessian_g_core() has not been implmented for 3D!") ∧
  ∃ H,
    eval_hessian_g_core 2 6 (λ _ k, Z.of_nat k) (λ id, (id / 2, id mod 2)%Z)
      (λ _ _ r c, inject_Z (Z.of_nat (6 * r + c))) [] [EVCandidate 0 2]
    = Ok [H] ∧
    sp_entries H !! (3, 0)%Z = Some (inject_Z 3).
Proof.
  split.
  - apply (eval_hessian_g_core_scatter 3 6 (λ _, 3%nat) (λ _ k, Z.of_nat k)
             (λ id, (id / 2, id mod 2)%Z)
             (λ _ _ r c, inject_Z (Z.of_nat (6 * r + c))) []
             [EVCandidate 0 2]).
    lia.
  - pose proof (eval_hessian_g_core_scatter 2 6 (λ _, 3%nat) (λ _ k, Z.of_nat k)
                  (λ id, (id / 2, id mod 2)%Z)
                  (λ _ _ r c, inject_Z (Z.of_nat (6 * r + c))) []
                  [EVCandidate 0 2]) as [_ Hok].
    destruct (eval_hessian_g_core _ _ _ _ _ _ _) as [hs|e] eqn:Heval;
      [|vm_compute in Heval; discriminate].
    destruct (Hok hs eq_refl) as [Hlen Hall].
    destruct hs as [|H [|? ?]]; try discriminate.
    destruct (Hall 0%nat (EVCandidate 0 2) H eq_refl eq_refl)
      as (_ & _ & rbc & Hrbc & Hentries).
    exists H. split; [reflexivity|].
    assert (Hr : rbc = RB2 1 0 0 0 1) by (vm_compute in Hrbc; congruence).
    subst rbc.
    destruct Hentries as [Hstored _]; [discriminate|].
    apply (Hstored 0%nat 1%nat 0%nat 0%nat); lia.
Defined.

End BarrierDerivativesFacts.
